(** * labelme/shape.py: the Shape point/segment model

    A shallow embedding of [labelme.shape.Shape]: its point and segment
    store, the incremental segment builder ([addSegment], [createSegment],
    [addPoint]), the index-based edits, the geometry queries, the path built
    by [makePath] and by the curve branch of [paint], and [copy].

    Conventions.
    - Python exceptions are values of [exn]; a method that can raise returns
      [result].
    - A Python list indexed by an [int] is a Rocq list indexed by a [Z], with
      Python's rules for negative and out-of-range indices written out in
      [py_getitem], [py_insert], [py_pop] and [py_setitem].
    - [QPointF] coordinates ([qreal], a double) are exact rationals, and
      distances too.  [==] on points is equality of both coordinates; Qt
      compares them up to a rounding tolerance, which exact coordinates do
      not need.
    - The elements of [Shape.points] are Python objects: normally [QPointF]s,
      but [createSegment] inserts its [new_p] argument, whose default is the
      integer [0].  [value] keeps both.
    - A method is first a function on [Shape] values.  Where the identity of
      the list objects matters, for [copy], the same methods are given on a
      store of objects. *)

From Stdlib Require Import ZArith QArith Qabs Lia Lqa Bool.
From stdpp Require Import base option list gmap strings.

Open Scope Z_scope.

(** ** Exceptions and results *)

Inductive exn : Type :=
  | IndexError
  | TypeError
  | ValueError
  | AttributeError
  | AssertionError
  | NoPointError.

Inductive result (A : Type) : Type :=
  | Ok (a : A)
  | Raise (e : exn).
Arguments Ok {A} a.
Arguments Raise {A} e.

#[global] Instance result_bind : MBind result :=
  λ A B (k : A → result B) (r : result A),
    match r with
    | Ok a => k a
    | Raise e => Raise e
    end.

Definition raises {A : Type} (r : result A) : Prop :=
  ∃ e, r = Raise e.

(** ** Python lists *)

Section pylist.
Context {A : Type}.

Definition py_len (l : list A) : Z := Z.of_nat (length l).

(** The position a subscript [l[i]] addresses: a negative [i] counts from
    the end, and anything outside [-len, len) is an [IndexError]. *)
Definition norm_index (l : list A) (i : Z) : option nat :=
  let j := if i <? 0 then i + py_len l else i in
  if (0 <=? j) && (j <? py_len l) then Some (Z.to_nat j) else None.

(** [l[i]] *)
Definition py_getitem (l : list A) (i : Z) : result A :=
  match norm_index l i with
  | Some k =>
      match l !! k with
      | Some x => Ok x
      | None => Raise IndexError
      end
  | None => Raise IndexError
  end.

(** [l[i] = x] *)
Definition py_setitem (l : list A) (i : Z) (x : A) : result (list A) :=
  match norm_index l i with
  | Some k => Ok (<[k:=x]> l)
  | None => Raise IndexError
  end.

(** [l.pop(i)]: the removed element and the remaining list. *)
Definition py_pop (l : list A) (i : Z) : result (A * list A) :=
  match norm_index l i with
  | Some k =>
      match l !! k with
      | Some x => Ok (x, delete k l)
      | None => Raise IndexError
      end
  | None => Raise IndexError
  end.

(** The position [l.insert(i, x)] uses: a negative [i] counts from the end
    and the result is clamped into [0, len]; [insert] never raises. *)
Definition insert_pos (l : list A) (i : Z) : nat :=
  let j := if i <? 0 then Z.max (i + py_len l) 0 else Z.min i (py_len l) in
  Z.to_nat j.

(** [l.insert(i, x)] *)
Definition py_insert (l : list A) (i : Z) (x : A) : list A :=
  take (insert_pos l i) l ++ x :: drop (insert_pos l i) l.

(** [l.append(x)] *)
Definition py_append (l : list A) (x : A) : list A := l ++ [x].
End pylist.

(** ** Points and list elements *)

Record QPointF : Type := mkPoint { px : Q; py : Q }.

Definition point_eqb (p q : QPointF) : bool :=
  Qeq_bool (px p) (px q) && Qeq_bool (py p) (py q).

Definition point_add (p q : QPointF) : QPointF :=
  mkPoint (px p + px q)%Q (py p + py q)%Q.

Definition point_sub (p q : QPointF) : QPointF :=
  mkPoint (px p - px q)%Q (py p - py q)%Q.

Inductive value : Type :=
  | VPoint (p : QPointF)
  | VInt (n : Z).

(** [a == b]: a point and an integer are never equal. *)
Definition value_eqb (a b : value) : bool :=
  match a, b with
  | VPoint p, VPoint q => point_eqb p q
  | VInt m, VInt n => m =? n
  | _, _ => false
  end.

(** Where the source hands an element to Qt as a point, or uses it as an
    operand of point arithmetic. *)
Definition as_point (v : value) : result QPointF :=
  match v with
  | VPoint p => Ok p
  | VInt _ => Raise TypeError
  end.

(** Where the source calls [.x()] and [.y()] on an element. *)
Definition attr_point (v : value) : result QPointF :=
  match v with
  | VPoint p => Ok p
  | VInt _ => Raise AttributeError
  end.

(** [a + offset] with a [QPointF] offset. *)
Definition value_add (v : value) (offset : QPointF) : result value :=
  p ← as_point v; Ok (VPoint (point_add p offset)).

(** [a - point] with a [QPointF] on the right. *)
Definition value_sub (v : value) (q : QPointF) : result QPointF :=
  p ← as_point v; Ok (point_sub p q).

(** ** The Shape object *)

Inductive ShapeType : Type :=
  | polygon | rectangle | point | line | circle | linestrip | curve.

Definition ShapeType_eqb (a b : ShapeType) : bool :=
  match a, b with
  | polygon, polygon | rectangle, rectangle | point, point | line, line
  | circle, circle | linestrip, linestrip | curve, curve => true
  | _, _ => false
  end.

(** A segment is the two-element list [[seg_begin, seg_len]]. *)
Abbreviation Segment := (Z * Z)%type.

Record Shape : Type := mkShape {
  shape_type : ShapeType;
  points : list value;
  segments : list Segment;
  points_in_segments : Z;
  closed : bool
}.

(** [Shape(shape_type=t)] *)
Definition init (t : ShapeType) : Shape :=
  mkShape t [] [] 0 false.

Definition set_points (sh : Shape) (ps : list value) : Shape :=
  mkShape (shape_type sh) ps (segments sh) (points_in_segments sh) (closed sh).

Definition set_points_in_segments (sh : Shape) (n : Z) : Shape :=
  mkShape (shape_type sh) (points sh) (segments sh) n (closed sh).

Definition QUADRATIC_BEZIER_ORDER : Z := 2.
Definition CUBIC_BEZIER_ORDER : Z := 3.

(** [close], [isClosed], [setOpen] *)
Definition close (sh : Shape) : Shape :=
  mkShape (shape_type sh) (points sh) (segments sh) (points_in_segments sh) true.

Definition isClosed (sh : Shape) : bool := closed sh.

Definition setOpen (sh : Shape) : Shape :=
  mkShape (shape_type sh) (points sh) (segments sh) (points_in_segments sh) false.

(** [addSegment] *)
Definition addSegment (sh : Shape) (seg_begin seg_len : Z) : Shape :=
  let pis :=
    if py_len (segments sh) =? 0 then 0 + seg_len
    else points_in_segments sh + (seg_len - 1) in
  mkShape (shape_type sh) (points sh)
          (py_append (segments sh) (seg_begin, seg_len)) pis (closed sh).

(** [addPointToSegment]: bumps the length of segment [seg_id]. *)
Definition addPointToSegment (sh : Shape) (pt : value) (seg_id : Z) : result Shape :=
  s ← py_getitem (segments sh) seg_id;
  segs ← py_setitem (segments sh) seg_id (s.1, s.2 + 1);
  Ok (mkShape (shape_type sh) (points sh) segs (points_in_segments sh) (closed sh)).

(** [insertPoint], [removePoint], [popPoint] *)
Definition insertPoint (sh : Shape) (i : Z) (pt : value) : Shape :=
  set_points sh (py_insert (points sh) i pt).

Definition removePoint (sh : Shape) (i : Z) : result Shape :=
  r ← py_pop (points sh) i; Ok (set_points sh r.2).

Definition popPoint (sh : Shape) : option value * Shape :=
  match py_pop (points sh) (-1) with
  | Ok (x, rest) => (Some x, set_points sh rest)
  | Raise _ => (None, sh)
  end.

(** [createSegment]; [new_p] is [VInt 0] when the caller leaves it out. *)
Definition createSegment (sh : Shape) (pt : value) (degree_increment : Z)
    (new_p : value) : result Shape :=
  last ← py_getitem (points sh) (-1);
  if value_eqb pt last then
    let size := QUADRATIC_BEZIER_ORDER + degree_increment in
    let seg_begin := py_len (points sh) - size in
    Ok (addSegment sh seg_begin size)
  else
    let size := CUBIC_BEZIER_ORDER + degree_increment in
    let sh1 := insertPoint sh (Z.max (py_len (points sh) - 1) 1) new_p in
    let seg_begin := py_len (points sh1) - size in
    let sh2 := set_points sh1 (py_append (points sh1) pt) in
    Ok (addSegment sh2 seg_begin size).

(** The [try ... except NoPointError] of [addPoint]: only [NoPointError] is
    caught, and the handler is [assert False]. *)
Definition catch_NoPointError {A : Type} (r : result A) : result A :=
  match r with
  | Raise NoPointError => Raise AssertionError
  | _ => r
  end.

(** [addPoint] *)
Definition addPoint (sh : Shape) (pt : value) (is_release : bool)
    (new_p : value) : result Shape :=
  if is_release && ShapeType_eqb (shape_type sh) curve then
    last ← py_getitem (points sh) (-1);
    if value_eqb pt last && (py_len (points sh) =? 1) then
      Ok (set_points_in_segments sh (points_in_segments sh + 1))
    else if (py_len (segments sh) =? 0) && (py_len (points sh) =? 1) then
      let sh1 := set_points sh (py_append (points sh) pt) in
      Ok (set_points_in_segments sh1 (points_in_segments sh1 + 1))
    else
      catch_NoPointError (
        let degree_increment :=
          Z.max (py_len (points sh) - points_in_segments sh - 1) 0 in
        sh1 ← createSegment sh pt degree_increment new_p;
        first ← py_getitem (points sh1) 0;
        if value_eqb pt first then
          r ← py_pop (points sh1) (-1);
          Ok (close (set_points sh1 r.2))
        else Ok sh1)
  else
    match points sh with
    | first :: _ =>
        if value_eqb pt first then
          let degree_increment :=
            Z.max (py_len (points sh) - points_in_segments sh) 0 in
          let sh1 :=
            if ShapeType_eqb (shape_type sh) curve && (degree_increment =? 1) then
              let size := QUADRATIC_BEZIER_ORDER + degree_increment in
              let seg_begin := py_len (points sh) - size + 1 in
              addSegment sh seg_begin size
            else sh in
          Ok (close sh1)
        else Ok (set_points sh (py_append (points sh) pt))
    | [] => Ok (set_points sh (py_append (points sh) pt))
    end.

(** [moveBy]: a fresh list [[p + offset for p in self.points]]. *)
Fixpoint add_offset (ps : list value) (offset : QPointF) : result (list value) :=
  match ps with
  | [] => Ok []
  | p :: ps' =>
      q ← value_add p offset;
      qs ← add_offset ps' offset;
      Ok (q :: qs)
  end.

Definition moveBy (sh : Shape) (offset : QPointF) : result Shape :=
  ps ← add_offset (points sh) offset; Ok (set_points sh ps).

(** [moveVertexBy] *)
Definition moveVertexBy (sh : Shape) (i : Z) (offset : QPointF) : result Shape :=
  p ← py_getitem (points sh) i;
  q ← value_add p offset;
  ps ← py_setitem (points sh) i q;
  Ok (set_points sh ps).

(** [canAddPoint] *)
Definition canAddPoint (sh : Shape) : bool :=
  ShapeType_eqb (shape_type sh) polygon || ShapeType_eqb (shape_type sh) linestrip.

(** ** Rectangles and paths (Qt value types)

    A [QRectF] is its corner and its signed extents.  A [QPainterPath] is
    the sequence of drawing calls made on it, [QPainterPath(p)] being a path
    that starts with [MoveTo p]. *)

Record QRectF : Type := mkRect { rx : Q; ry : Q; rw : Q; rh : Q }.



Inductive PathOp : Type :=
  | MoveTo (p : QPointF)
  | LineTo (p : QPointF)
  | QuadTo (c e : QPointF)
  | CubicTo (c1 c2 e : QPointF)
  | AddRect (r : QRectF)
  | AddEllipse (r : QRectF).

Abbreviation QPainterPath := (list PathOp).


(** [getRectFromLine] *)
Definition getRectFromLine (pt1 pt2 : value) : result QRectF :=
  p1 ← attr_point pt1;
  p2 ← attr_point pt2;
  Ok (mkRect (px p1) (py p1) (px p2 - px p1)%Q (py p2 - py p1)%Q).

(** [drawSegment]: the call it makes on the path. *)
Definition drawSegment (sh : Shape) (segment : Segment) : result PathOp :=
  let beg_p_ind := segment.1 in
  if segment.2 =? 4 then
    a ← py_getitem (points sh) (beg_p_ind + 1);
    b ← py_getitem (points sh) (beg_p_ind + 2);
    c ← py_getitem (points sh) (beg_p_ind + 3);
    a ← as_point a; b ← as_point b; c ← as_point c;
    Ok (CubicTo a b c)
  else if segment.2 =? 3 then
    if py_len (points sh) >=? segment.1 + segment.2 then
      a ← py_getitem (points sh) (beg_p_ind + 1);
      b ← py_getitem (points sh) (beg_p_ind + 2);
      a ← as_point a; b ← as_point b;
      Ok (QuadTo a b)
    else
      a ← py_getitem (points sh) (beg_p_ind + 1);
      b ← py_getitem (points sh) 0;
      a ← as_point a; b ← as_point b;
      Ok (QuadTo a b)
  else
    a ← py_getitem (points sh) (beg_p_ind + 1);
    a ← as_point a;
    Ok (LineTo a).

(** The [line_path] that the curve branch of [paint] builds from the
    recorded segments, up to the closing [lineTo]. *)
Fixpoint paint_segments (sh : Shape) (segs : list Segment) : result QPainterPath :=
  match segs with
  | [] => Ok []
  | s :: segs' =>
      b ← py_getitem (points sh) s.1;
      b ← as_point b;
      op ← drawSegment sh s;
      rest ← paint_segments sh segs';
      Ok (MoveTo b :: op :: rest)
  end.

Definition paint_curve_line_path (sh : Shape) : result QPainterPath :=
  match points sh with
  | [] => Ok []
  | v0 :: _ =>
      p0 ← as_point v0;
      body ← paint_segments sh (segments sh);
      Ok (MoveTo p0 :: body ++ (if isClosed sh then [LineTo p0] else []))
  end.

(** [for p in ps: path.lineTo(p)] *)
Fixpoint line_to_all (ps : list value) : result QPainterPath :=
  match ps with
  | [] => Ok []
  | p :: ps' =>
      q ← as_point p;
      rest ← line_to_all ps';
      Ok (LineTo q :: rest)
  end.

(** ** Containment of a point in a path (Qt)

    [QPainterPath.contains] with the default odd-even fill rule: every
    subpath is closed implicitly and each straight edge is tested against
    the horizontal ray that ends at the query point. *)

Definition Qlt_bool (x y : Q) : bool := negb (Qle_bool y x).

Definition isect_line (p1 p2 pos : QPointF) : Z :=
  if Qeq_bool (py p1) (py p2) then 0
  else
    let down := Qlt_bool (py p2) (py p1) in
    let a := if down then p2 else p1 in
    let b := if down then p1 else p2 in
    let dir := if down then -1 else 1 in
    if Qle_bool (py a) (py pos) && Qlt_bool (py pos) (py b) then
      let x := (px a + ((px b - px a) / (py b - py a)) * (py pos - py a))%Q in
      if Qle_bool x (px pos) then dir else 0
    else 0.

(** [QRectF.isNull()] *)
Definition rect_isNull (r : QRectF) : bool :=
  Qeq_bool (rw r) 0 && Qeq_bool (rh r) 0.

(** [addRect] appends one closed subpath through the four corners, and
    nothing for a null rectangle. *)
Definition rect_elements (r : QRectF) : QPainterPath :=
  if rect_isNull r then []
  else [ MoveTo (mkPoint (rx r) (ry r));
         LineTo (mkPoint (rx r + rw r)%Q (ry r));
         LineTo (mkPoint (rx r + rw r)%Q (ry r + rh r)%Q);
         LineTo (mkPoint (rx r) (ry r + rh r)%Q);
         LineTo (mkPoint (rx r) (ry r)) ].

Fixpoint path_elements (path : QPainterPath) : QPainterPath :=
  match path with
  | [] => []
  | AddRect r :: path' => rect_elements r ++ path_elements path'
  | op :: path' => op :: path_elements path'
  end.

Section External.
(** What the module takes from outside this file: [math.sqrt],
    [labelme.utils.distance] and [labelme.utils.distancetoline], and from
    Qt the crossing count of a curved piece of a path (the piece, the
    point it starts from, the query point) and the bounding rectangle of
    a path. *)
Variable sqrt : Q → Q.
Variable distance : QPointF → Q.
Variable distancetoline : QPointF → list value → result Q.
Variable curve_winding : PathOp → QPointF → QPointF → Z.
Variable path_boundingRect : QPainterPath → QRectF.

Fixpoint winding (els : QPainterPath) (start cur pos : QPointF) : Z :=
  match els with
  | [] => isect_line cur start pos
  | MoveTo p :: els' => isect_line cur start pos + winding els' p p pos
  | LineTo p :: els' => isect_line cur p pos + winding els' start p pos
  | QuadTo c e :: els' =>
      curve_winding (QuadTo c e) cur pos + winding els' start e pos
  | CubicTo c1 c2 e :: els' =>
      curve_winding (CubicTo c1 c2 e) cur pos + winding els' start e pos
  | AddEllipse r :: els' =>
      let p := mkPoint (rx r + rw r)%Q (ry r + rh r / 2)%Q in
      isect_line cur start pos + curve_winding (AddEllipse r) p pos
      + winding els' p p pos
  | AddRect _ :: els' => winding els' start cur pos
      (* not reached: [path_elements] leaves no [AddRect] *)
  end.

Definition path_contains (path : QPainterPath) (pos : QPointF) : bool :=
  Z.odd (winding (path_elements path) (mkPoint 0 0) (mkPoint 0 0) pos).

(** [getCircleRectFromLine] *)
Definition getCircleRectFromLine (ln : list value) : result (option QRectF) :=
  match ln with
  | [c; pt] =>
      r ← match c, pt with
          | VPoint a, VPoint b => Ok (point_sub a b)
          | VInt _, VInt _ => Raise AttributeError
          | _, _ => Raise TypeError
          end;
      let d := sqrt (px r ^ 2 + py r ^ 2)%Q in
      c ← attr_point c;
      Ok (Some (mkRect (px c - d)%Q (py c - d)%Q (2 * d)%Q (2 * d)%Q))
  | _ => Ok None
  end.

(** [makePath] *)
Definition makePath (sh : Shape) : result QPainterPath :=
  if ShapeType_eqb (shape_type sh) rectangle then
    match points sh with
    | [pt1; pt2] =>
        r ← getRectFromLine pt1 pt2;
        Ok [AddRect r]
    | _ => Ok []
    end
  else if ShapeType_eqb (shape_type sh) circle then
    match points sh with
    | [_; _] =>
        r ← getCircleRectFromLine (points sh);
        match r with
        | Some r => Ok [AddEllipse r]
        | None => Raise TypeError
        end
    | _ => Ok []
    end
  else
    v0 ← py_getitem (points sh) 0;
    p0 ← as_point v0;
    rest ← line_to_all (drop 1 (points sh));
    Ok (MoveTo p0 :: rest).

(** [containsPoint] *)
Definition containsPoint (sh : Shape) (pos : QPointF) : result bool :=
  path ← makePath sh; Ok (path_contains path pos).

(** [boundingRect] *)
Definition boundingRect (sh : Shape) : result QRectF :=
  path ← makePath sh; Ok (path_boundingRect path).

(** The running minimum of [nearestVertex] and [nearestEdge]:
    [min_distance] starts at [float('inf')], here [None]. *)
Definition below_min (dist : Q) (min_distance : option Q) : bool :=
  match min_distance with
  | None => true
  | Some m => Qlt_bool dist m
  end.

Definition keep_nearest (epsilon dist : Q) (i : Z)
    (st : option Q * option Z) : option Q * option Z :=
  if Qle_bool dist epsilon && below_min dist st.1 then (Some dist, Some i)
  else st.

(** [nearestVertex]: the loop over [enumerate(self.points)], from index
    [i] with the running minimum [st]. *)
Fixpoint nearestVertex_loop (ps : list value) (i : Z) (pos : QPointF)
    (epsilon : Q) (st : option Q * option Z) : result (option Z) :=
  match ps with
  | [] => Ok st.2
  | p :: ps' =>
      d ← value_sub p pos;
      nearestVertex_loop ps' (i + 1) pos epsilon
        (keep_nearest epsilon (distance d) i st)
  end.

Definition nearestVertex (sh : Shape) (pos : QPointF) (epsilon : Q)
    : result (option Z) :=
  nearestVertex_loop (points sh) 0 pos epsilon (None, None).

(** [nearestEdge]: the loop over [range(len(self.points))]. *)
Fixpoint nearestEdge_loop (sh : Shape) (n : nat) (i : Z) (pos : QPointF)
    (epsilon : Q) (st : option Q * option Z) : result (option Z) :=
  match n with
  | O => Ok st.2
  | S n' =>
      a ← py_getitem (points sh) (i - 1);
      b ← py_getitem (points sh) i;
      dist ← distancetoline pos [a; b];
      nearestEdge_loop sh n' (i + 1) pos epsilon
        (keep_nearest epsilon dist i st)
  end.

Definition nearestEdge (sh : Shape) (pos : QPointF) (epsilon : Q)
    : result (option Z) :=
  nearestEdge_loop sh (length (points sh)) 0 pos epsilon (None, None).
End External.

(** ** Derived operations used in the statements *)

(** [addSegment] called once per recorded segment, in order. *)
Definition addSegments (sh : Shape) (segs : list Segment) : Shape :=
  foldl (λ acc s, addSegment acc s.1 s.2) sh segs.

Definition Zsum (l : list Z) : Z := foldr Z.add 0 l.

(** The value [new_p] takes when the caller does not pass it. *)
Definition new_p_default : value := VInt 0.

(** A point with integer coordinates. *)
Definition P (x y : Z) : QPointF := mkPoint (inject_Z x) (inject_Z y).

(** ** The object store

    [copy] is [copy.deepcopy(self)], and what it promises is about object
    identity: which list objects two shapes share.  Here the objects live
    in a store.  A [Shape] instance holds references to its [points] list
    and to its [segments] list; the [segments] list holds references to
    the two-element lists [[seg_begin, seg_len]], which [addPointToSegment]
    updates in place.  Points are values: no method changes a [QPointF] in
    place. *)

Abbreviation loc := positive.

Record ShapeObj : Type := mkObj {
  o_shape_type : ShapeType;
  o_points : loc;
  o_segments : loc;
  o_points_in_segments : Z;
  o_closed : bool
}.

Inductive cell : Type :=
  | CPoints (ps : list value)
  | CSegments (ls : list loc)
  | CSegment (s : Segment)
  | CShape (o : ShapeObj).

Abbreviation heap := (gmap loc cell).

(** The shape an instance denotes: its lists read through the store. *)
Fixpoint read_segments (h : heap) (ls : list loc) : option (list Segment) :=
  match ls with
  | [] => Some []
  | l :: ls' =>
      match h !! l with
      | Some (CSegment s) =>
          match read_segments h ls' with
          | Some ss => Some (s :: ss)
          | None => None
          end
      | _ => None
      end
  end.

Definition read_shape (h : heap) (s : loc) : option Shape :=
  match h !! s with
  | Some (CShape o) =>
      match h !! o_points o, h !! o_segments o with
      | Some (CPoints ps), Some (CSegments ls) =>
          match read_segments h ls with
          | Some ss =>
              Some (mkShape (o_shape_type o) ps ss
                      (o_points_in_segments o) (o_closed o))
          | None => None
          end
      | _, _ => None
      end
  | _ => None
  end.

(** The objects an instance is made of. *)
Definition footprint (h : heap) (s : loc) : gset loc :=
  match h !! s with
  | Some (CShape o) =>
      {[s]} ∪ {[o_points o]} ∪ {[o_segments o]}
      ∪ match h !! o_segments o with
        | Some (CSegments ls) => list_to_set ls
        | _ => ∅
        end
  | _ => ∅
  end.

(** A new object. *)
Definition alloc (h : heap) (c : cell) : heap * loc :=
  (<[fresh (dom h) := c]> h, fresh (dom h)).

(** [deepcopy] of the segment lists, with the memo of [copy.deepcopy]: a
    list object met twice is copied once. *)
Fixpoint copy_segments (h : heap) (memo : gmap loc loc) (ls : list loc)
    : option (heap * gmap loc loc * list loc) :=
  match ls with
  | [] => Some (h, memo, [])
  | l :: ls' =>
      match memo !! l with
      | Some l' =>
          match copy_segments h memo ls' with
          | Some (h', memo', out) => Some (h', memo', l' :: out)
          | None => None
          end
      | None =>
          match h !! l with
          | Some (CSegment s) =>
              match copy_segments (alloc h (CSegment s)).1
                      (<[l := (alloc h (CSegment s)).2]> memo) ls' with
              | Some (h', memo', out) =>
                  Some (h', memo', (alloc h (CSegment s)).2 :: out)
              | None => None
              end
          | _ => None
          end
      end
  end.

(** [copy]: a new instance with its own [points] list, its own [segments]
    list and its own segment lists. *)
Definition copy (h : heap) (s : loc) : option (heap * loc) :=
  match h !! s with
  | Some (CShape o) =>
      match h !! o_points o, h !! o_segments o with
      | Some (CPoints ps), Some (CSegments ls) =>
          let a1 := alloc h (CPoints ps) in
          match copy_segments a1.1 ∅ ls with
          | Some (h2, _, ls') =>
              let a3 := alloc h2 (CSegments ls') in
              Some (alloc a3.1
                      (CShape (mkObj (o_shape_type o) a1.2 a3.2
                                 (o_points_in_segments o) (o_closed o))))
          | None => None
          end
      | _, _ => None
      end
  | _ => None
  end.

(** *** Methods on an instance in the store

    A method is a store transformer that returns a result; what it did to
    the store before raising stays done. *)

Definition M (A : Type) : Type := heap → result A * heap.

#[global] Instance M_ret : MRet M := λ A (a : A) (h : heap), (Ok a, h).

#[global] Instance M_bind : MBind M :=
  λ A B (k : A → M B) (m : M A) (h : heap),
    match m h with
    | (Ok a, h') => k a h'
    | (Raise e, h') => (Raise e, h')
    end.

Definition lift {A : Type} (r : result A) : M A := λ h, (r, h).

Definition raise {A : Type} (e : exn) : M A := λ h, (Raise e, h).

(** Reading and writing one object. *)
Definition load (l : loc) : M cell := λ h,
  match h !! l with
  | Some c => (Ok c, h)
  | None => (Raise AttributeError, h)
  end.

Definition store (l : loc) (c : cell) : M unit := λ h, (Ok (), <[l := c]> h).

Definition get_obj (s : loc) : M ShapeObj :=
  c ← load s;
  match c with
  | CShape o => mret o
  | _ => raise AttributeError
  end.

(** [self.points_in_segments = n] and [self._closed = b] *)
Definition put_scalars (s : loc) (n : Z) (b : bool) : M unit :=
  o ← get_obj s;
  store s (CShape (mkObj (o_shape_type o) (o_points o) (o_segments o) n b)).

(** [self.points = <the list at l>] *)
Definition rebind_points (s : loc) (l : loc) : M unit :=
  o ← get_obj s;
  store s (CShape (mkObj (o_shape_type o) l (o_segments o)
                     (o_points_in_segments o) (o_closed o))).

(** The contents of [self.points], and an update of that list in place. *)
Definition get_points (s : loc) : M (list value) :=
  o ← get_obj s;
  c ← load (o_points o);
  match c with
  | CPoints ps => mret ps
  | _ => raise AttributeError
  end.

Definition put_points (s : loc) (ps : list value) : M unit :=
  o ← get_obj s;
  c ← load (o_points o);
  match c with
  | CPoints _ => store (o_points o) (CPoints ps)
  | _ => raise AttributeError
  end.

(** The contents of [self.segments], and an update of that list in place. *)
Definition get_seglocs (s : loc) : M (list loc) :=
  o ← get_obj s;
  c ← load (o_segments o);
  match c with
  | CSegments ls => mret ls
  | _ => raise AttributeError
  end.

Definition put_seglocs (s : loc) (ls : list loc) : M unit :=
  o ← get_obj s;
  c ← load (o_segments o);
  match c with
  | CSegments _ => store (o_segments o) (CSegments ls)
  | _ => raise AttributeError
  end.

(** One segment list, and its update in place. *)
Definition get_seg (l : loc) : M Segment :=
  c ← load l;
  match c with
  | CSegment s => mret s
  | _ => raise TypeError
  end.

Definition put_seg (l : loc) (s : Segment) : M unit :=
  c ← load l;
  match c with
  | CSegment _ => store l (CSegment s)
  | _ => raise TypeError
  end.

Definition new_cell (c : cell) : M loc := λ h, (Ok (alloc h c).2, (alloc h c).1).

Definition h_close (s : loc) : M unit :=
  o ← get_obj s; put_scalars s (o_points_in_segments o) true.

Definition h_setOpen (s : loc) : M unit :=
  o ← get_obj s; put_scalars s (o_points_in_segments o) false.

Definition h_addSegment (s : loc) (seg_begin seg_len : Z) : M unit :=
  ls ← get_seglocs s;
  o ← get_obj s;
  put_scalars s
    (if py_len ls =? 0 then 0 + seg_len
     else o_points_in_segments o + (seg_len - 1))
    (o_closed o);;
  l ← new_cell (CSegment (seg_begin, seg_len));
  put_seglocs s (py_append ls l).

Definition h_addPointToSegment (s : loc) (pt : value) (seg_id : Z) : M unit :=
  ls ← get_seglocs s;
  l ← lift (py_getitem ls seg_id);
  sg ← get_seg l;
  put_seg l (sg.1, sg.2 + 1).

Definition h_insertPoint (s : loc) (i : Z) (pt : value) : M unit :=
  ps ← get_points s; put_points s (py_insert ps i pt).

Definition h_removePoint (s : loc) (i : Z) : M unit :=
  ps ← get_points s; r ← lift (py_pop ps i); put_points s r.2.

Definition h_popPoint (s : loc) : M (option value) :=
  ps ← get_points s;
  match ps with
  | [] => mret None
  | _ => r ← lift (py_pop ps (-1)); put_points s r.2;; mret (Some r.1)
  end.

Definition h_moveBy (s : loc) (offset : QPointF) : M unit :=
  ps ← get_points s;
  ps' ← lift (add_offset ps offset);
  l ← new_cell (CPoints ps');
  rebind_points s l.

Definition h_moveVertexBy (s : loc) (i : Z) (offset : QPointF) : M unit :=
  ps ← get_points s;
  p ← lift (py_getitem ps i);
  q ← lift (value_add p offset);
  ps' ← lift (py_setitem ps i q);
  put_points s ps'.

Definition h_createSegment (s : loc) (pt : value) (degree_increment : Z)
    (new_p : value) : M unit :=
  ps ← get_points s;
  lst ← lift (py_getitem ps (-1));
  if value_eqb pt lst then
    let size := QUADRATIC_BEZIER_ORDER + degree_increment in
    h_addSegment s (py_len ps - size) size
  else
    let size := CUBIC_BEZIER_ORDER + degree_increment in
    h_insertPoint s (Z.max (py_len ps - 1) 1) new_p;;
    ps1 ← get_points s;
    put_points s (py_append ps1 pt);;
    h_addSegment s (py_len ps1 - size) size.

Definition h_catch_NoPointError {A : Type} (m : M A) : M A := λ h,
  match m h with
  | (Raise NoPointError, h') => (Raise AssertionError, h')
  | r => r
  end.

Definition h_addPoint (s : loc) (pt : value) (is_release : bool)
    (new_p : value) : M unit :=
  o ← get_obj s;
  if is_release && ShapeType_eqb (o_shape_type o) curve then
    ps ← get_points s;
    lst ← lift (py_getitem ps (-1));
    if value_eqb pt lst && (py_len ps =? 1) then
      put_scalars s (o_points_in_segments o + 1) (o_closed o)
    else
      ls ← get_seglocs s;
      if (py_len ls =? 0) && (py_len ps =? 1) then
        put_points s (py_append ps pt);;
        put_scalars s (o_points_in_segments o + 1) (o_closed o)
      else
        h_catch_NoPointError (
          h_createSegment s pt
            (Z.max (py_len ps - o_points_in_segments o - 1) 0) new_p;;
          ps1 ← get_points s;
          first ← lift (py_getitem ps1 0);
          if value_eqb pt first then
            r ← lift (py_pop ps1 (-1));
            put_points s r.2;;
            h_close s
          else mret ())
  else
    ps ← get_points s;
    match ps with
    | first :: _ =>
        if value_eqb pt first then
          let degree_increment :=
            Z.max (py_len ps - o_points_in_segments o) 0 in
          (if ShapeType_eqb (o_shape_type o) curve && (degree_increment =? 1)
           then
             let size := QUADRATIC_BEZIER_ORDER + degree_increment in
             h_addSegment s (py_len ps - size + 1) size
           else mret ());;
          h_close s
        else put_points s (py_append ps pt)
    | [] => put_points s (py_append ps pt)
    end.

(** The calls that change a shape. *)
Inductive mutation : Type :=
  | MAddPoint (pt : value) (is_release : bool) (new_p : value)
  | MCreateSegment (pt : value) (degree_increment : Z) (new_p : value)
  | MAddSegment (seg_begin seg_len : Z)
  | MAddPointToSegment (pt : value) (seg_id : Z)
  | MInsertPoint (i : Z) (pt : value)
  | MRemovePoint (i : Z)
  | MPopPoint
  | MMoveBy (offset : QPointF)
  | MMoveVertexBy (i : Z) (offset : QPointF)
  | MClose
  | MSetOpen.

Definition apply_mutation (s : loc) (m : mutation) : M unit :=
  match m with
  | MAddPoint pt is_release new_p => h_addPoint s pt is_release new_p
  | MCreateSegment pt d new_p => h_createSegment s pt d new_p
  | MAddSegment b n => h_addSegment s b n
  | MAddPointToSegment pt seg_id => h_addPointToSegment s pt seg_id
  | MInsertPoint i pt => h_insertPoint s i pt
  | MRemovePoint i => h_removePoint s i
  | MPopPoint => h_popPoint s;; mret ()
  | MMoveBy offset => h_moveBy s offset
  | MMoveVertexBy i offset => h_moveVertexBy s i offset
  | MClose => h_close s
  | MSetOpen => h_setOpen s
  end.

(** A run of calls on one instance; a call that raises is abandoned where
    it stopped and the run goes on. *)
Definition run_mutations (s : loc) (ms : list mutation) (h : heap) : heap :=
  foldl (λ acc m, (apply_mutation s m acc).2) h ms.

(** What a method called on the instance [c] keeps true of the objects in
    [F], which it does not own: they are as in [h0], and nothing [c] holds
    refers to them. *)
Definition frame_inv (F : gset loc) (h0 : heap) (c : loc) (h : heap) : Prop :=
  F ⊆ dom h
  ∧ (∀ l, l ∈ F → h !! l = h0 !! l)
  ∧ (c ∉ F)
  ∧ ∃ oc, h !! c = Some (CShape oc)
      ∧ (o_points oc ∉ F) ∧ (o_segments oc ∉ F)
      ∧ ∀ ls, h !! o_segments oc = Some (CSegments ls) → ∀ l, l ∈ ls → l ∉ F.

Definition hoare {A : Type} (F : gset loc) (h0 : heap) (c : loc)
    (m : M A) (Q : A → Prop) : Prop :=
  ∀ h, frame_inv F h0 c h →
    frame_inv F h0 c (m h).2 ∧ ∀ a, (m h).1 = Ok a → Q a.

(** The distance [nearestVertex] computes for a stored point. *)
Definition dist_to (distance : QPointF → Q) (pos p : QPointF) : Q :=
  distance (point_sub p pos).

(** What the running minimum of [nearestVertex] knows after the points
    [pre]: nothing within [epsilon] so far, or the first of the nearest
    points. *)
Definition nearest_of (distance : QPointF → Q) (pos : QPointF) (epsilon : Q)
    (pre : list QPointF) (st : option Q * option Z) : Prop :=
  match st with
  | (None, None) => ∀ p, p ∈ pre → (epsilon < dist_to distance pos p)%Q
  | (Some d, Some i) =>
      ∃ (k : nat) (p : QPointF),
        i = Z.of_nat k ∧ pre !! k = Some p ∧ d = dist_to distance pos p
        ∧ (dist_to distance pos p <= epsilon)%Q
        ∧ (∀ j q, pre !! j = Some q →
             (dist_to distance pos p <= dist_to distance pos q)%Q)
        ∧ (∀ j q, pre !! j = Some q → (j < k)%nat →
             (dist_to distance pos p < dist_to distance pos q)%Q)
  | _ => False
  end.

(** What the memo of a running [copy] holds: copies made since the copy
    started, each equal to its source. *)
Definition memo_ok (h0 h : heap) (memo : gmap loc loc) : Prop :=
  ∀ l l', memo !! l = Some l' →
    (l' ∉ dom h0) ∧ l' ∈ dom h ∧ h !! l' = h0 !! l.

(** A store with one curve: four points and the segment (0, 3). *)
Definition example_shape : Shape :=
  mkShape curve
    [VPoint (P 0 0); VPoint (P 2 1); VPoint (P 4 0); VPoint (P 4 4)]
    [(0, 3)] 3 false.

Definition example_store : heap :=
  <[1%positive := CShape (mkObj curve 2 3 3 false)]>
    (<[2%positive := CPoints (points example_shape)]>
       (<[3%positive := CSegments [4%positive]]>
          (<[4%positive := CSegment (0, 3)]> ∅))).

(** A curve whose single segment is a cubic over its four points. *)
Definition cubic_shape : Shape :=
  mkShape curve
    [VPoint (P 0 0); VPoint (P 0 4); VPoint (P 4 4); VPoint (P 4 0)]
    [(0, 4)] 4 false.

(** ** More of the class *)

(** The names the [shape_type] setter accepts, in the order of its list. *)
Definition shape_type_names : list (string * ShapeType) :=
  [("polygon", polygon); ("rectangle", rectangle); ("point", point);
   ("line", line); ("circle", circle); ("linestrip", linestrip);
   ("curve", curve)].

Definition shape_type_name (t : ShapeType) : string :=
  match t with
  | polygon => "polygon"
  | rectangle => "rectangle"
  | point => "point"
  | line => "line"
  | circle => "circle"
  | linestrip => "linestrip"
  | curve => "curve"
  end.

(** [value in [...]] *)
Fixpoint name_lookup (l : list (string * ShapeType)) (s : string)
    : option ShapeType :=
  match l with
  | [] => None
  | (n, t) :: l' => if String.eqb s n then Some t else name_lookup l' s
  end.

(** The [shape_type] setter: [None] stands for ['polygon'], a name outside
    the list is a [ValueError]. *)
Definition set_shape_type (v : option string) : result ShapeType :=
  let name := match v with None => "polygon"%string | Some s => s end in
  match name_lookup shape_type_names name with
  | Some t => Ok t
  | None => Raise ValueError
  end.

(** [__len__], [__getitem__], [__setitem__] with an integer key. *)
Definition shape_len (sh : Shape) : Z := py_len (points sh).

Definition shape_getitem (sh : Shape) (key : Z) : result value :=
  py_getitem (points sh) key.

Definition shape_setitem (sh : Shape) (key : Z) (v : value) : result Shape :=
  ps ← py_setitem (points sh) key v; Ok (set_points sh ps).

(** [drawVertex] for every stored element, with the class defaults (round
    markers, no vertex highlighted, scale 1): the marker is
    [addEllipse(point, d / 2, d / 2)], which takes a point.  The markers go
    to a path of their own; what matters here is whether drawing them
    raises. *)
Fixpoint draw_vertices (ps : list value) : result unit :=
  match ps with
  | [] => Ok ()
  | p :: ps' => _ ← as_point p; draw_vertices ps'
  end.

Section Paint.
Variable sqrt : Q → Q.

(** The [line_path] of [paint]: nothing for a shape without points, then
    one branch per shape type; for a closed curve [paint] goes on to add
    the polygon of the segment starts and to simplify the path, which is
    left to Qt. *)
Definition paint_line_path (sh : Shape) : result QPainterPath :=
  match points sh with
  | [] => Ok []
  | v0 :: _ =>
      if ShapeType_eqb (shape_type sh) rectangle then
        if (py_len (points sh) =? 1) || (py_len (points sh) =? 2) then
          path ← match points sh with
                 | [pt1; pt2] => r ← getRectFromLine pt1 pt2; Ok [AddRect r]
                 | _ => Ok []
                 end;
          _ ← draw_vertices (points sh);
          Ok path
        else Raise AssertionError
      else if ShapeType_eqb (shape_type sh) circle then
        if (py_len (points sh) =? 1) || (py_len (points sh) =? 2) then
          path ← match points sh with
                 | [_; _] =>
                     r ← getCircleRectFromLine sqrt (points sh);
                     match r with
                     | Some r => Ok [AddEllipse r]
                     | None => Raise TypeError
                     end
                 | _ => Ok []
                 end;
          _ ← draw_vertices (points sh);
          Ok path
        else Raise AssertionError
      else if ShapeType_eqb (shape_type sh) linestrip then
        p0 ← as_point v0;
        rest ← line_to_all (points sh);
        Ok (MoveTo p0 :: rest)
      else if ShapeType_eqb (shape_type sh) curve then
        _ ← draw_vertices (points sh);
        paint_curve_line_path sh
      else
        p0 ← as_point v0;
        rest ← line_to_all (points sh);
        Ok (MoveTo p0 :: rest ++ (if isClosed sh then [LineTo p0] else []))
  end.
End Paint.



(** What the segment sizes add up to when consecutive segments share their
    boundary point: s1 + (s2 - 1) + ... + (sk - 1). *)
Definition segments_total (segs : list Segment) : Z :=
  match segs with
  | [] => 0
  | s :: rest => s.2 + Zsum (map (λ x, x.2 - 1) rest)
  end.

(** The distance [nearestEdge] computes at index [k], for a
    [distancetoline] that answers [dl a b] on the edge [[a, b]]: the edge
    ends at [points[k]] and starts at [points[k - 1]], the last point when
    [k] is 0. *)
Definition edge_dist (dl : value → value → Q) (ps : list value) (k : nat)
    : option Q :=
  match py_getitem ps (Z.of_nat k - 1), py_getitem ps (Z.of_nat k) with
  | Ok a, Ok b => Some (dl a b)
  | _, _ => None
  end.

(** What the running minimum of a scan knows after the indices below [k],
    for distances [e]. *)
Definition scan_inv (e : nat → option Q) (epsilon : Q) (k : nat)
    (st : option Q * option Z) : Prop :=
  match st with
  | (None, None) => ∀ j d, (j < k)%nat → e j = Some d → (epsilon < d)%Q
  | (Some d, Some i) =>
      ∃ m : nat,
        i = Z.of_nat m ∧ (m < k)%nat ∧ e m = Some d ∧ (d <= epsilon)%Q
        ∧ (∀ j d', (j < k)%nat → e j = Some d' → (d <= d')%Q)
        ∧ (∀ j d', (j < m)%nat → e j = Some d' → (d < d')%Q)
  | _ => False
  end.


(** * Properties *)

(** Boolean comparisons on [Z] in the context, as propositions. *)
Ltac zbool :=
  repeat match goal with
  | H : (_ <? _) = true |- _ => apply Z.ltb_lt in H
  | H : (_ <? _) = false |- _ => apply Z.ltb_ge in H
  | H : (_ <=? _) = true |- _ => apply Z.leb_le in H
  | H : (_ <=? _) = false |- _ => apply Z.leb_gt in H
  | H : (_ =? _) = true |- _ => apply Z.eqb_eq in H
  | H : (_ =? _) = false |- _ => apply Z.eqb_neq in H
  | H : (_ >=? _) = true |- _ => rewrite Z.geb_leb in H
  | H : (_ >=? _) = false |- _ => rewrite Z.geb_leb in H
  end.

(** ** Python list subscripts *)

Section pylist_facts.
Context {A : Type}.
Implicit Types (l : list A) (x : A) (i : Z).

Lemma py_len_app l1 l2 : py_len (l1 ++ l2) = py_len l1 + py_len l2.
Proof. unfold py_len. rewrite length_app. lia. Qed.

Lemma py_len_nonneg l : 0 <= py_len l.
Proof. unfold py_len. lia. Qed.

Lemma norm_index_Some l i k :
  norm_index l i = Some k →
  (k < length l)%nat ∧
  Z.of_nat k = (if i <? 0 then i + py_len l else i) ∧ - py_len l <= i < py_len l.
Proof.
  unfold norm_index, py_len. intros H.
  destruct (i <? 0) eqn:Hi;
    destruct (0 <=? _) eqn:H0; destruct (_ <? Z.of_nat (length l)) eqn:H1;
    simpl in H; try discriminate; injection H as <-; zbool; lia.
Qed.

Lemma norm_index_None l i :
  norm_index l i = None ↔ ¬ (- py_len l <= i < py_len l).
Proof.
  unfold norm_index, py_len.
  destruct (i <? 0) eqn:Hi;
    destruct (0 <=? _) eqn:H0; destruct (_ <? Z.of_nat (length l)) eqn:H1;
    simpl; zbool; (split; [intros H; try discriminate; clear H | intros H]);
    solve [reflexivity | lia | exfalso; lia].
Qed.

Lemma norm_index_nonneg l (k : nat) :
  (k < length l)%nat → norm_index l (Z.of_nat k) = Some k.
Proof.
  intros Hk. unfold norm_index, py_len.
  replace (Z.of_nat k <? 0) with false by lia.
  replace (0 <=? Z.of_nat k) with true by lia.
  replace (Z.of_nat k <? Z.of_nat (length l)) with true by lia.
  simpl. by rewrite Nat2Z.id.
Qed.

Lemma norm_index_last l x : norm_index (l ++ [x]) (-1) = Some (length l).
Proof.
  destruct (norm_index (l ++ [x]) (-1)) as [k|] eqn:Hk.
  - apply norm_index_Some in Hk as (_ & Hk & _).
    rewrite py_len_app in Hk. unfold py_len in Hk. simpl in Hk.
    f_equal. lia.
  - apply norm_index_None in Hk. rewrite py_len_app in Hk.
    unfold py_len in Hk. simpl in Hk. lia.
Qed.

Lemma py_getitem_raise l i e : py_getitem l i = Raise e → e = IndexError.
Proof.
  unfold py_getitem. destruct (norm_index l i); [destruct (l !! _)|]; congruence.
Qed.

Lemma py_getitem_IndexError l i :
  py_getitem l i = Raise IndexError ↔ ¬ (- py_len l <= i < py_len l).
Proof.
  unfold py_getitem. destruct (norm_index l i) as [k|] eqn:Hk.
  - destruct (norm_index_Some _ _ _ Hk) as (Hlt & _ & Hr).
    destruct (lookup_lt_is_Some_2 l k Hlt) as [x ->].
    split; [discriminate | tauto].
  - apply norm_index_None in Hk. tauto.
Qed.

Lemma py_getitem_nil i : py_getitem (@nil A) i = Raise IndexError.
Proof. apply py_getitem_IndexError. unfold py_len. simpl. lia. Qed.

Lemma py_getitem_last l x : py_getitem (l ++ [x]) (-1) = Ok x.
Proof.
  unfold py_getitem. rewrite norm_index_last.
  by rewrite lookup_app_r, Nat.sub_diag by lia.
Qed.

Lemma py_getitem_nat l (k : nat) x :
  l !! k = Some x → py_getitem l (Z.of_nat k) = Ok x.
Proof.
  intros H. unfold py_getitem.
  rewrite norm_index_nonneg by (by eapply lookup_lt_Some). by rewrite H.
Qed.

Lemma py_getitem_first x l : py_getitem (x :: l) 0 = Ok x.
Proof. by apply (py_getitem_nat (x :: l) 0). Qed.

Lemma py_pop_raise l i e : py_pop l i = Raise e → e = IndexError.
Proof.
  unfold py_pop. destruct (norm_index l i); [destruct (l !! _)|]; congruence.
Qed.


Lemma py_pop_last l x : py_pop (l ++ [x]) (-1) = Ok (x, l).
Proof.
  unfold py_pop. rewrite norm_index_last.
  rewrite lookup_app_r, Nat.sub_diag by lia. simpl.
  do 2 f_equal. induction l as [|y l IH]; simpl; [done | by f_equal].
Qed.

Lemma py_setitem_raise l i x e : py_setitem l i x = Raise e → e = IndexError.
Proof. unfold py_setitem. destruct (norm_index l i); congruence. Qed.

Lemma py_setitem_IndexError l i x :
  py_setitem l i x = Raise IndexError ↔ ¬ (- py_len l <= i < py_len l).
Proof.
  unfold py_setitem. destruct (norm_index l i) as [k|] eqn:Hk.
  - destruct (norm_index_Some _ _ _ Hk) as (_ & _ & Hr).
    split; [discriminate | tauto].
  - apply norm_index_None in Hk. tauto.
Qed.

Lemma py_insert_length l i x : py_len (py_insert l i x) = py_len l + 1.
Proof.
  unfold py_insert, py_len. rewrite length_app. simpl.
  rewrite length_take, length_drop. lia.
Qed.

Lemma insert_pos_le l i : (insert_pos l i <= length l)%nat.
Proof. unfold insert_pos, py_len. destruct (i <? 0) eqn:Hi; zbool; lia. Qed.

Lemma insert_pos_in_range l i :
  0 <= i <= py_len l → insert_pos l i = Z.to_nat i.
Proof.
  unfold insert_pos, py_len. intros H.
  replace (i <? 0) with false by lia. f_equal. lia.
Qed.



Lemma insert_pos_negative l i :
  - py_len l <= i < 0 → insert_pos l i = Z.to_nat (py_len l + i).
Proof.
  unfold insert_pos, py_len. intros H.
  replace (i <? 0) with true by lia. f_equal. lia.
Qed.
End pylist_facts.

(** ** The segment counter *)

Lemma addSegment_segments sh b s :
  segments (addSegment sh b s) = segments sh ++ [(b, s)].
Proof. reflexivity. Qed.

Lemma addSegment_points sh b s : points (addSegment sh b s) = points sh.
Proof. reflexivity. Qed.

Lemma addSegment_first sh b s :
  segments sh = [] → points_in_segments (addSegment sh b s) = s.
Proof. intros H. unfold addSegment. rewrite H. simpl. lia. Qed.

Lemma addSegment_next sh b s :
  segments sh ≠ [] →
  points_in_segments (addSegment sh b s) = points_in_segments sh + (s - 1).
Proof.
  intros H. unfold addSegment. simpl.
  destruct (segments sh) as [|x l]; [done|]. reflexivity.
Qed.

Lemma addSegments_snoc sh segs s :
  addSegments sh (segs ++ [s]) = addSegment (addSegments sh segs) s.1 s.2.
Proof. unfold addSegments. rewrite (foldl_snoc _ sh segs s). reflexivity. Qed.

Lemma addSegments_segments sh segs :
  segments (addSegments sh segs) = segments sh ++ segs.
Proof.
  induction segs as [|s segs IH] using rev_ind.
  - simpl. by rewrite app_nil_r.
  - rewrite addSegments_snoc, addSegment_segments, IH.
    destruct s. by rewrite <- app_assoc.
Qed.

Lemma Zsum_snoc l x : Zsum (l ++ [x]) = Zsum l + x.
Proof. induction l as [|y l IH]; simpl; lia. Qed.

(** C3. Starting from a shape with no recorded segment, after segments of
    sizes s1..sk have been added with [addSegment], [points_in_segments] is
    s1 after the first, grows by s_i - 1 with each later one, and so is
    s1 + sum over i = 2..k of (s_i - 1); whatever the counter held before
    the first segment is discarded. *)
Theorem addSegment_points_in_segments (sh : Shape) (seg : Segment)
    (rest : list Segment) :
  segments sh = [] →
  points_in_segments (addSegments sh [seg]) = seg.2
  ∧ (∀ pre s post, rest = pre ++ s :: post →
       points_in_segments (addSegments sh (seg :: pre ++ [s]))
       = points_in_segments (addSegments sh (seg :: pre)) + (s.2 - 1))
  ∧ points_in_segments (addSegments sh (seg :: rest))
    = seg.2 + Zsum (map (λ s, s.2 - 1) rest)
  ∧ segments (addSegments sh (seg :: rest)) = seg :: rest.
Proof.
  intros Hnil.
  assert (Hstep : ∀ pre s,
    points_in_segments (addSegments sh (seg :: pre ++ [s]))
    = points_in_segments (addSegments sh (seg :: pre)) + (s.2 - 1)).
  { intros pre s. change (seg :: pre ++ [s]) with ((seg :: pre) ++ [s]).
    rewrite addSegments_snoc.
    apply addSegment_next. rewrite addSegments_segments, Hnil. done. }
  split; [by apply addSegment_first|].
  split; [intros pre s post _; apply Hstep|].
  split; [|by rewrite addSegments_segments, Hnil].
  induction rest as [|s rest IH] using rev_ind.
  - cbn [map Zsum foldr]. rewrite Z.add_0_r. by apply addSegment_first.
  - rewrite Hstep, IH, List.map_app. cbn [map]. rewrite Zsum_snoc. lia.
Qed.

Lemma addSegment_points_in_segments_witness :
  segments (mkShape curve [] [] 2 false) = []
  ∧ points_in_segments
      (addSegments (mkShape curve [] [] 2 false) [(0, 3); (2, 4); (5, 2)])
    = 3 + Zsum [4 - 1; 2 - 1].
Proof.
  split; [reflexivity|].
  apply (addSegment_points_in_segments (mkShape curve [] [] 2 false) (0, 3)
           [(2, 4); (5, 2)]).
  reflexivity.
Defined.

(** ** The release protocol of [addPoint] *)

Lemma nonempty_snoc {A : Type} (l : list A) :
  l ≠ [] → ∃ l' x, l = l' ++ [x].
Proof.
  destruct l as [|y l] using rev_ind; [done|]. intros _. eauto.
Qed.

Lemma createSegment_raise sh pt d new_p e :
  createSegment sh pt d new_p = Raise e → e = IndexError.
Proof.
  unfold createSegment.
  destruct (py_getitem (points sh) (-1)) as [lst|e'] eqn:Hl; simpl.
  - destruct (value_eqb pt lst); discriminate.
  - intros [= <-]. by eapply py_getitem_raise.
Qed.

Lemma createSegment_points_nonempty sh pt d new_p sh' :
  createSegment sh pt d new_p = Ok sh' → points sh' ≠ [].
Proof.
  unfold createSegment.
  destruct (py_getitem (points sh) (-1)) as [lst|e'] eqn:Hl; simpl; [|done].
  destruct (value_eqb pt lst); intros [= <-]; simpl.
  - intros Hnil. rewrite Hnil, py_getitem_nil in Hl. done.
  - unfold py_append. intros H. by apply app_eq_nil in H as [_ ?].
Qed.

Lemma createSegment_nonempty sh pt d new_p :
  points sh ≠ [] → ∃ sh', createSegment sh pt d new_p = Ok sh'.
Proof.
  intros H. apply nonempty_snoc in H as (l & x & Hl).
  unfold createSegment. rewrite Hl, py_getitem_last. simpl.
  destruct (value_eqb pt x); eauto.
Qed.

(** Every exception [addPoint] can raise is an [IndexError]. *)
Lemma addPoint_raise sh pt is_release new_p e :
  addPoint sh pt is_release new_p = Raise e → e = IndexError.
Proof.
  unfold addPoint.
  destruct (is_release && ShapeType_eqb (shape_type sh) curve).
  - destruct (py_getitem (points sh) (-1)) as [lst|e'] eqn:Hl; simpl.
    2:{ intros [= <-]. by eapply py_getitem_raise. }
    destruct (value_eqb pt lst && (py_len (points sh) =? 1)); [done|].
    destruct ((py_len (segments sh) =? 0) && (py_len (points sh) =? 1)); [done|].
    destruct (createSegment sh pt _ new_p) as [sh1|e1] eqn:Hc; simpl.
    2:{ apply createSegment_raise in Hc as ->. by intros [= <-]. }
    destruct (py_getitem (points sh1) 0) as [fst|e2] eqn:Hf; simpl.
    2:{ apply py_getitem_raise in Hf as ->. by intros [= <-]. }
    destruct (value_eqb pt fst); simpl; [|done].
    destruct (py_pop (points sh1) (-1)) as [r|e3] eqn:Hp; simpl; [done|].
    apply py_pop_raise in Hp as ->. by intros [= <-].
  - destruct (points sh) as [|v l]; [done|].
    destruct (value_eqb pt v); done.
Qed.

(** C10. On a curve shape with no point, [addPoint(point, is_release=True)]
    reads [self.points[-1]] and raises [IndexError]; with at least one point
    stored the same call returns.  The release protocol thus needs a first
    point, which nothing in [addPoint] checks. *)
Theorem addPoint_release_empty (sh : Shape) (pt new_p : value) :
  shape_type sh = curve →
  (points sh = [] → addPoint sh pt true new_p = Raise IndexError)
  ∧ (points sh ≠ [] → ∃ sh', addPoint sh pt true new_p = Ok sh').
Proof.
  intros Ht. unfold addPoint. rewrite Ht. simpl. split.
  - intros ->. by rewrite py_getitem_nil.
  - intros Hne. destruct (nonempty_snoc _ Hne) as (l & x & Hl).
    rewrite Hl, py_getitem_last. simpl. rewrite <- Hl.
    destruct (value_eqb pt x && _); [eauto|].
    destruct ((py_len (segments sh) =? 0) && _); [eauto|].
    destruct (createSegment_nonempty sh pt
      (Z.max (py_len (points sh) - points_in_segments sh - 1) 0) new_p Hne)
      as [sh1 Hc].
    rewrite Hc. simpl.
    pose proof (createSegment_points_nonempty _ _ _ _ _ Hc) as Hne1.
    destruct (points sh1) as [|v l1] eqn:Hp1; [done|].
    rewrite py_getitem_first. simpl.
    destruct (value_eqb pt v); simpl; [|eauto].
    destruct (nonempty_snoc (v :: l1)) as (l2 & y & Hl2); [done|].
    rewrite Hl2, py_pop_last. simpl. eauto.
Qed.

Lemma addPoint_release_empty_witness :
  shape_type (init curve) = curve
  ∧ points (init curve) = []
  ∧ addPoint (init curve) (VPoint (P 1 1)) true new_p_default = Raise IndexError.
Proof.
  split; [reflexivity|]. split; [reflexivity|].
  apply (addPoint_release_empty (init curve) (VPoint (P 1 1)) new_p_default);
    reflexivity.
Defined.

(** C1. A curve shape holding [(0,0), (4,0)] receives the release of a new
    point (4,4) with no anchor passed.  The specification asks for a "missing
    control point" error; the code inserts the default [0] into the point
    list, records the segment (0, 3) over it and returns.  No call of
    [addPoint] can end in [NoPointError] or in the [AssertionError] of its
    handler. *)
Theorem addPoint_missing_anchor_inserted :
  addPoint (mkShape curve [VPoint (P 0 0); VPoint (P 4 0)] [] 2 false)
           (VPoint (P 4 4)) true new_p_default
  = Ok (mkShape curve
          [VPoint (P 0 0); VInt 0; VPoint (P 4 0); VPoint (P 4 4)]
          [(0, 3)] 3 false)
  ∧ ∀ sh pt is_release new_p,
      addPoint sh pt is_release new_p ≠ Raise NoPointError
      ∧ addPoint sh pt is_release new_p ≠ Raise AssertionError.
Proof.
  split; [reflexivity|].
  intros sh pt r np. split; intros H; apply addPoint_raise in H; discriminate.
Qed.

(** ** [createSegment] *)

Lemma py_insert_before_last (pre : list value) (lst new_p : value) :
  py_insert (pre ++ [lst]) (Z.max (py_len (pre ++ [lst]) - 1) 1) new_p
  = if py_len (pre ++ [lst]) =? 1 then [lst; new_p] else pre ++ [new_p; lst].
Proof.
  unfold py_insert. destruct pre as [|a pre].
  - reflexivity.
  - assert (Hlen : py_len ((a :: pre) ++ [lst]) = py_len (a :: pre) + 1)
      by apply py_len_app.
    assert (Hpos : 1 <= py_len (a :: pre)) by (unfold py_len; simpl; lia).
    replace (py_len ((a :: pre) ++ [lst]) =? 1) with false by lia.
    rewrite insert_pos_in_range by lia.
    replace (Z.to_nat (Z.max (py_len ((a :: pre) ++ [lst]) - 1) 1))
      with (length (a :: pre)) by (unfold py_len in *; lia).
    by rewrite take_app_length, drop_app_length.
Qed.

(** C2 as stated fails: after the release of a new point the recorded
    segment does not end at the incoming point.  With points
    [(0,0), (4,0)], incoming point (4,4) and anchor (2,1) the segment is
    (0, 3), whose final index 2 holds (4,0). *)
Lemma createSegment_final_point_counterexample :
  ¬ (∀ sh pt d new_p lst,
       py_getitem (points sh) (-1) = Ok lst →
       value_eqb pt lst = false →
       ∃ sh' seg,
         createSegment sh pt d new_p = Ok sh'
         ∧ last (segments sh') = Some seg
         ∧ py_getitem (points sh') (seg.1 + seg.2 - 1) = Ok pt).
Proof.
  intros H.
  destruct (H (mkShape curve [VPoint (P 0 0); VPoint (P 4 0)] [] 2 false)
              (VPoint (P 4 4)) 0 (VPoint (P 2 1)) (VPoint (P 4 0))
              eq_refl eq_refl) as (sh' & seg & Hc & Hl & Hg).
  vm_compute in Hc. injection Hc as <-.
  vm_compute in Hl. injection Hl as <-.
  vm_compute in Hg. discriminate Hg.
Qed.

(** C2, amended. On a shape with N >= 1 points whose last point is [lst]:
    if the incoming point equals [lst], [createSegment] records the segment
    (N - size, size) with size = 2 + degree_increment and leaves the points
    alone; otherwise it inserts the anchor at index max(N - 1, 1), records
    the segment ((N + 1) - size, size) with size = 3 + degree_increment and
    appends the incoming point, which lands at index begin + size, one past
    the segment's final index; for N >= 2 the segment's final point is
    [lst]. *)
Theorem createSegment_behaviour (sh : Shape) (pt new_p : value) (d : Z)
    (pre : list value) (lst : value) :
  points sh = pre ++ [lst] →
  let N := py_len (points sh) in
  (value_eqb pt lst = true →
     createSegment sh pt d new_p = Ok (addSegment sh (N - (2 + d)) (2 + d)))
  ∧ (value_eqb pt lst = false →
     let k := Z.to_nat (Z.max (N - 1) 1) in
     let seg_begin := (N + 1) - (3 + d) in
     let pts := take k (points sh) ++ new_p :: drop k (points sh) in
     createSegment sh pt d new_p
       = Ok (addSegment (set_points sh (pts ++ [pt])) seg_begin (3 + d))
     ∧ pts = (if N =? 1 then [lst; new_p] else pre ++ [new_p; lst])
     ∧ py_getitem (pts ++ [pt]) (seg_begin + (3 + d)) = Ok pt
     ∧ (2 <= N → py_getitem (pts ++ [pt]) (seg_begin + (3 + d) - 1) = Ok lst)).
Proof.
  intros Hp N. subst N.
  assert (HN : py_len (points sh) = py_len pre + 1)
    by (rewrite Hp; apply py_len_app).
  pose proof (py_len_nonneg pre) as Hpre.
  split; intros He.
  - unfold createSegment. rewrite Hp at 1. rewrite py_getitem_last. simpl.
    by rewrite He.
  - cbv zeta.
    assert (Hins : py_insert (points sh) (Z.max (py_len (points sh) - 1) 1) new_p
      = take (Z.to_nat (Z.max (py_len (points sh) - 1) 1)) (points sh)
        ++ new_p :: drop (Z.to_nat (Z.max (py_len (points sh) - 1) 1)) (points sh)).
    { unfold py_insert. by rewrite insert_pos_in_range by lia. }
    assert (Hlen : py_len (take (Z.to_nat (Z.max (py_len (points sh) - 1) 1)) (points sh)
        ++ new_p :: drop (Z.to_nat (Z.max (py_len (points sh) - 1) 1)) (points sh))
        = py_len (points sh) + 1).
    { rewrite <- Hins. apply py_insert_length. }
    assert (Hshape : take (Z.to_nat (Z.max (py_len (points sh) - 1) 1)) (points sh)
        ++ new_p :: drop (Z.to_nat (Z.max (py_len (points sh) - 1) 1)) (points sh)
        = if py_len (points sh) =? 1 then [lst; new_p] else pre ++ [new_p; lst]).
    { rewrite <- Hins, Hp. apply py_insert_before_last. }
    split; [|split; [exact Hshape|split]].
    + unfold createSegment. rewrite Hp at 1. rewrite py_getitem_last. simpl.
      rewrite He. unfold insertPoint. simpl. rewrite Hins.
      unfold py_append. do 3 f_equal. unfold py_len in *. lia.
    + replace (py_len (points sh) + 1 - (3 + d) + (3 + d))
        with (Z.of_nat (length (take (Z.to_nat (Z.max (py_len (points sh) - 1) 1)) (points sh)
        ++ new_p :: drop (Z.to_nat (Z.max (py_len (points sh) - 1) 1)) (points sh))))
        by (unfold py_len in *; lia).
      apply py_getitem_nat. by rewrite lookup_app_r, Nat.sub_diag by lia.
    + intros H2. rewrite Hshape.
      replace (py_len (points sh) =? 1) with false by lia.
      replace (py_len (points sh) + 1 - (3 + d) + (3 + d) - 1)
        with (Z.of_nat (length (pre ++ [new_p]))).
      2:{ rewrite length_app. unfold py_len in *. simpl. lia. }
      apply py_getitem_nat.
      replace (pre ++ [new_p; lst]) with ((pre ++ [new_p]) ++ [lst])
        by (by rewrite <- app_assoc).
      rewrite <- app_assoc. rewrite app_assoc.
      rewrite lookup_app_l by (rewrite !length_app; simpl; lia).
      by rewrite lookup_app_r, Nat.sub_diag by lia.
Qed.

Lemma createSegment_behaviour_witness :
  points (mkShape curve [VPoint (P 0 0); VPoint (P 4 0)] [] 2 false)
    = [VPoint (P 0 0)] ++ [VPoint (P 4 0)]
  ∧ value_eqb (VPoint (P 4 4)) (VPoint (P 4 0)) = false
  ∧ createSegment (mkShape curve [VPoint (P 0 0); VPoint (P 4 0)] [] 2 false)
                  (VPoint (P 4 4)) 0 (VPoint (P 2 1))
    = Ok (mkShape curve
            [VPoint (P 0 0); VPoint (P 2 1); VPoint (P 4 0); VPoint (P 4 4)]
            [(0, 3)] 3 false).
Proof.
  split; [reflexivity|]. split; [reflexivity|].
  pose proof (createSegment_behaviour
    (mkShape curve [VPoint (P 0 0); VPoint (P 4 0)] [] 2 false)
    (VPoint (P 4 4)) (VPoint (P 2 1)) 0 [VPoint (P 0 0)] (VPoint (P 4 0))
    eq_refl) as [_ H].
  destruct (H eq_refl) as [Hc _]. exact Hc.
Defined.

(** ** Index-based edits *)






(** ** Queries on an empty shape, and the path of [makePath] *)

Section queries.
Variable sqrt : Q → Q.
Variable distance : QPointF → Q.
Variable distancetoline : QPointF → list value → result Q.
Variable curve_winding : PathOp → QPointF → QPointF → Z.
Variable path_boundingRect : QPainterPath → QRectF.

Lemma line_to_all_points (ps : list QPointF) :
  line_to_all (map VPoint ps) = Ok (map LineTo ps).
Proof.
  induction ps as [|p ps IH]; [reflexivity|].
  simpl. rewrite IH. reflexivity.
Qed.

Lemma makePath_polyline sh p0 ps :
  shape_type sh ≠ rectangle → shape_type sh ≠ circle →
  points sh = map VPoint (p0 :: ps) →
  makePath sqrt sh = Ok (MoveTo p0 :: map LineTo ps).
Proof.
  intros Hr Hc Hp. unfold makePath.
  destruct (shape_type sh); try done;
    rewrite Hp; simpl map; rewrite py_getitem_first; simpl;
    rewrite drop_0, line_to_all_points; reflexivity.
Qed.

Lemma makePath_empty_raises sh :
  shape_type sh ≠ rectangle → shape_type sh ≠ circle → points sh = [] →
  makePath sqrt sh = Raise IndexError.
Proof.
  intros Hr Hc Hp. unfold makePath.
  destruct (shape_type sh); try done; by rewrite Hp, py_getitem_nil.
Qed.

Lemma makePath_empty_box sh :
  shape_type sh = rectangle ∨ shape_type sh = circle → points sh = [] →
  makePath sqrt sh = Ok [].
Proof. intros [Ht|Ht] Hp; unfold makePath; by rewrite Ht, Hp. Qed.

(** On a shape with no point, [nearestVertex] and [nearestEdge] return
    [None]; for a rectangle or a circle [makePath] yields the empty path,
    so [containsPoint] is [False] and [boundingRect] is the bounding
    rectangle of the empty path; for every other shape type [makePath]
    reads [self.points[0]], and [containsPoint] and [boundingRect] raise
    [IndexError]. *)
Lemma empty_shape_queries (sh : Shape) (pos : QPointF) (epsilon : Q) :
  points sh = [] →
  nearestVertex distance sh pos epsilon = Ok None
  ∧ nearestEdge distancetoline sh pos epsilon = Ok None
  ∧ (shape_type sh = rectangle ∨ shape_type sh = circle →
       containsPoint sqrt curve_winding sh pos = Ok false
       ∧ boundingRect sqrt path_boundingRect sh = Ok (path_boundingRect []))
  ∧ (shape_type sh ≠ rectangle → shape_type sh ≠ circle →
       containsPoint sqrt curve_winding sh pos = Raise IndexError
       ∧ boundingRect sqrt path_boundingRect sh = Raise IndexError).
Proof.
  intros Hp. split; [|split; [|split]].
  - unfold nearestVertex. by rewrite Hp.
  - unfold nearestEdge. by rewrite Hp.
  - intros Ht. unfold containsPoint, boundingRect.
    by rewrite (makePath_empty_box sh Ht Hp).
  - intros Hr Hc. unfold containsPoint, boundingRect.
    by rewrite (makePath_empty_raises sh Hr Hc Hp).
Qed.

(** For a curve shape whose points are p0, p1, ..., the path under
    [containsPoint] and [boundingRect] is the one [makePath] builds: it
    starts at p0 and has one [LineTo] per later point, whatever segments
    are recorded.  The path made of the recorded segments belongs to
    [paint]: per segment a [MoveTo] to its first point followed by what
    [drawSegment] adds, a [CubicTo] for length 4, a [QuadTo] for length 3
    (ending at [points[0]] when begin + length exceeds the point count)
    and a [LineTo] otherwise. *)
Lemma curve_queries_use_polyline (sh : Shape) (p0 : QPointF)
    (ps : list QPointF) (pos : QPointF) :
  shape_type sh = curve →
  points sh = map VPoint (p0 :: ps) →
  makePath sqrt sh = Ok (MoveTo p0 :: map LineTo ps)
  ∧ containsPoint sqrt curve_winding sh pos
    = Ok (path_contains curve_winding (MoveTo p0 :: map LineTo ps) pos)
  ∧ boundingRect sqrt path_boundingRect sh
    = Ok (path_boundingRect (MoveTo p0 :: map LineTo ps))
  ∧ (∀ segs cl,
       makePath sqrt (mkShape curve (points sh) segs (points_in_segments sh) cl)
       = makePath sqrt sh)
  ∧ (∀ b a c e,
       py_getitem (points sh) (b + 1) = Ok (VPoint a) →
       py_getitem (points sh) (b + 2) = Ok (VPoint c) →
       (py_getitem (points sh) (b + 3) = Ok (VPoint e) →
          drawSegment sh (b, 4) = Ok (CubicTo a c e))
       ∧ (b + 3 <= py_len (points sh) → drawSegment sh (b, 3) = Ok (QuadTo a c))
       ∧ (py_len (points sh) < b + 3 → drawSegment sh (b, 3) = Ok (QuadTo a p0))
       ∧ (∀ n, n ≠ 3 → n ≠ 4 → drawSegment sh (b, n) = Ok (LineTo a))).
Proof.
  intros Ht Hp.
  assert (Hm : makePath sqrt sh = Ok (MoveTo p0 :: map LineTo ps))
    by (apply makePath_polyline; [rewrite Ht; done..|done]).
  split; [done|]. split; [by unfold containsPoint; rewrite Hm|].
  split; [by unfold boundingRect; rewrite Hm|]. split.
  - intros segs cl. rewrite Hm. by apply makePath_polyline.
  - intros b a c e Ha Hc. unfold drawSegment. cbn [fst snd].
    split; [|split; [|split]].
    + intros He. change (4 =? 4) with true. cbv iota.
      by rewrite Ha, Hc, He.
    + intros Hle. change (3 =? 4) with false. change (3 =? 3) with true.
      cbv iota. replace (py_len (points sh) >=? b + 3) with true by lia.
      by rewrite Ha, Hc.
    + intros Hlt. change (3 =? 4) with false. change (3 =? 3) with true.
      cbv iota. replace (py_len (points sh) >=? b + 3) with false by lia.
      rewrite Ha. cbn [mbind result_bind]. rewrite Hp. simpl map.
      by rewrite py_getitem_first.
    + intros n H3 H4.
      replace (n =? 4) with false by lia. replace (n =? 3) with false by lia.
      by rewrite Ha.
Qed.
End queries.

(** C4. A polygon with no point: [nearestVertex] and [nearestEdge] return
    [None], as specified, but [containsPoint] and [boundingRect] raise
    [IndexError], because [makePath] reads [self.points[0]]; an empty
    rectangle, whose branch of [makePath] looks at the number of points
    first, gets the empty path. *)
Theorem empty_polygon_queries_raise :
  ∀ (sqrt : Q → Q) (distance : QPointF → Q)
    (distancetoline : QPointF → list value → result Q)
    (curve_winding : PathOp → QPointF → QPointF → Z)
    (path_boundingRect : QPainterPath → QRectF) (pos : QPointF) (epsilon : Q),
    nearestVertex distance (init polygon) pos epsilon = Ok None
    ∧ nearestEdge distancetoline (init polygon) pos epsilon = Ok None
    ∧ containsPoint sqrt curve_winding (init polygon) pos = Raise IndexError
    ∧ boundingRect sqrt path_boundingRect (init polygon) = Raise IndexError
    ∧ containsPoint sqrt curve_winding (init rectangle) pos = Ok false.
Proof. intros. repeat split; reflexivity. Qed.

(** C6. The curve (0,0), (0,4), (4,4), (4,0) with the single segment
    (0, 4): [paint] draws one cubic from the recorded segment, while
    [makePath] gives three straight lines through the four points and never
    looks at the segments.  The point (2, 7/2) lies above the cubic, which
    peaks at height 3, and [containsPoint] answers [True] whatever the
    curved pieces of a path would contribute. *)
Theorem curve_containsPoint_ignores_segments :
  ∀ (sqrt : Q → Q) (curve_winding : PathOp → QPointF → QPointF → Z),
    paint_curve_line_path cubic_shape
    = Ok [MoveTo (P 0 0); MoveTo (P 0 0); CubicTo (P 0 4) (P 4 4) (P 4 0)]
    ∧ makePath sqrt cubic_shape
      = Ok [MoveTo (P 0 0); LineTo (P 0 4); LineTo (P 4 4); LineTo (P 4 0)]
    ∧ makePath sqrt cubic_shape ≠ paint_curve_line_path cubic_shape
    ∧ containsPoint sqrt curve_winding cubic_shape (mkPoint 2 (7 # 2)) = Ok true.
Proof.
  intros. split; [reflexivity|]. split; [reflexivity|].
  split; [|reflexivity]. intros H. vm_compute in H. discriminate H.
Qed.

(** ** [nearestVertex] *)

(** Boolean comparisons on [Q] in the context, as propositions. *)
Lemma Qlt_bool_true x y : Qlt_bool x y = true ↔ (x < y)%Q.
Proof.
  unfold Qlt_bool. rewrite negb_true_iff, <- not_true_iff_false, Qle_bool_iff.
  split; [apply Qnot_le_lt | apply Qlt_not_le].
Qed.

Lemma Qlt_bool_false x y : Qlt_bool x y = false ↔ (y <= x)%Q.
Proof. unfold Qlt_bool. by rewrite negb_false_iff, Qle_bool_iff. Qed.

Lemma Qle_bool_false x y : Qle_bool x y = false ↔ (y < x)%Q.
Proof.
  rewrite <- not_true_iff_false, Qle_bool_iff.
  split; [apply Qnot_le_lt | apply Qlt_not_le].
Qed.

Ltac qbool :=
  repeat match goal with
  | H : Qle_bool _ _ = true |- _ => apply Qle_bool_iff in H
  | H : Qle_bool _ _ = false |- _ => apply Qle_bool_false in H
  | H : Qlt_bool _ _ = true |- _ => apply Qlt_bool_true in H
  | H : Qlt_bool _ _ = false |- _ => apply Qlt_bool_false in H
  | H : Qeq_bool _ _ = true |- _ => apply Qeq_bool_iff in H
  | H : Qeq_bool _ _ = false |- _ => apply Qeq_bool_neq in H
  end.

Section nearest.
Variable distance : QPointF → Q.
Variable pos : QPointF.
Variable epsilon : Q.

Lemma nearest_of_step pre st p :
  nearest_of distance pos epsilon pre st →
  nearest_of distance pos epsilon (pre ++ [p])
    (keep_nearest epsilon (dist_to distance pos p) (Z.of_nat (length pre)) st).
Proof.
  intros Hinv. unfold keep_nearest.
  destruct (Qle_bool (dist_to distance pos p) epsilon) eqn:Hle; simpl.
  - destruct st as [[d|] [i|]]; simpl in *; try done.
    + destruct Hinv as (k & pk & -> & Hk & -> & Hke & Hmin & Hstrict).
      destruct (Qlt_bool (dist_to distance pos p) (dist_to distance pos pk)) eqn:Hlt; qbool.
      * exists (length pre), p. split; [done|].
        split; [by rewrite lookup_app_r, Nat.sub_diag by lia|].
        split; [done|]. split; [done|]. split.
        -- intros j q Hj. apply lookup_snoc_Some in Hj as [[_ Hj]|[_ <-]].
           ++ specialize (Hmin j q Hj). lra.
           ++ lra.
        -- intros j q Hj Hjk. apply lookup_snoc_Some in Hj as [[_ Hj]|[? _]].
           ++ specialize (Hmin j q Hj). lra.
           ++ lia.
      * exists k, pk. split; [done|].
        split; [by apply lookup_app_l_Some|].
        split; [done|]. split; [done|]. split.
        -- intros j q Hj. apply lookup_snoc_Some in Hj as [[_ Hj]|[_ <-]].
           ++ by apply (Hmin j q).
           ++ done.
        -- intros j q Hj Hjk. apply lookup_snoc_Some in Hj as [[_ Hj]|[-> _]].
           ++ by apply (Hstrict j q).
           ++ apply lookup_lt_Some in Hk. lia.
    + qbool. exists (length pre), p. split; [done|].
      split; [by rewrite lookup_app_r, Nat.sub_diag by lia|].
      split; [done|]. split; [done|]. split.
      * intros j q Hj. apply lookup_snoc_Some in Hj as [[_ Hj]|[_ <-]].
        -- apply list_elem_of_lookup_2 in Hj. specialize (Hinv q Hj). lra.
        -- lra.
      * intros j q Hj Hjk. apply lookup_snoc_Some in Hj as [[_ Hj]|[? _]].
        -- apply list_elem_of_lookup_2 in Hj. specialize (Hinv q Hj). lra.
        -- lia.
  - qbool. destruct st as [[d|] [i|]]; simpl in *; try done.
    + destruct Hinv as (k & pk & -> & Hk & -> & Hke & Hmin & Hstrict).
      exists k, pk. split; [done|].
      split; [by apply lookup_app_l_Some|].
      split; [done|]. split; [done|]. split.
      * intros j q Hj. apply lookup_snoc_Some in Hj as [[_ Hj]|[_ <-]].
        -- by apply (Hmin j q).
        -- lra.
      * intros j q Hj Hjk. apply lookup_snoc_Some in Hj as [[_ Hj]|[-> _]].
        -- by apply (Hstrict j q).
        -- apply lookup_lt_Some in Hk. lia.
    + intros q Hq. apply elem_of_app in Hq as [Hq|Hq].
      * by apply Hinv.
      * apply list_elem_of_singleton in Hq as ->. done.
Qed.

Lemma nearestVertex_loop_points rest : ∀ pre st,
  nearest_of distance pos epsilon pre st →
  ∃ m r,
    nearestVertex_loop distance (map VPoint rest) (Z.of_nat (length pre))
      pos epsilon st = Ok r
    ∧ nearest_of distance pos epsilon (pre ++ rest) (m, r).
Proof.
  induction rest as [|p rest IH]; intros pre st Hinv.
  - simpl. rewrite app_nil_r. exists st.1, st.2. by destruct st.
  - simpl.
    destruct (IH (pre ++ [p]) _ (nearest_of_step pre st p Hinv))
      as (m & r & Hloop & Hfin).
    exists m, r. rewrite <- app_assoc in Hfin. split; [|done].
    rewrite <- Hloop. f_equal. rewrite length_app. simpl. lia.
Qed.

(** C7. On a list of points, [nearestVertex(point, epsilon)] returns
    [None] exactly when every stored point is farther than epsilon;
    otherwise it returns the index of a point within epsilon whose
    distance is minimal over the whole list, and strictly smaller than the
    distance of every point at an earlier index: among points at equal
    minimal distance the earliest wins. *)
Theorem nearestVertex_minimal (sh : Shape) (pts : list QPointF) :
  points sh = map VPoint pts →
  ∃ r, nearestVertex distance sh pos epsilon = Ok r
    ∧ (r = None ↔ ∀ p, p ∈ pts → (epsilon < dist_to distance pos p)%Q)
    ∧ (∀ i, r = Some i →
         ∃ (k : nat) (p : QPointF),
           i = Z.of_nat k ∧ pts !! k = Some p
           ∧ (dist_to distance pos p <= epsilon)%Q
           ∧ (∀ j q, pts !! j = Some q → (dist_to distance pos p <= dist_to distance pos q)%Q)
           ∧ (∀ j q, pts !! j = Some q → (j < k)%nat →
                (dist_to distance pos p < dist_to distance pos q)%Q)).
Proof.
  intros Hp. unfold nearestVertex. rewrite Hp.
  destruct (nearestVertex_loop_points pts [] (None, None))
    as (m & r & Hloop & Hfin).
  { intros p Hin. by apply elem_of_nil in Hin. }
  simpl in Hloop, Hfin. exists r. split; [done|].
  destruct m as [d|], r as [i|]; simpl in Hfin; try done.
  destruct Hfin as (k & p & -> & Hk & -> & Hle & Hmin & Hstrict). split.
  - split; [done|]. intros Hall. exfalso.
    apply list_elem_of_lookup_2 in Hk. specialize (Hall p Hk). lra.
  - intros i [= <-]. exists k, p. done.
Qed.
End nearest.

Lemma nearestVertex_minimal_witness :
  points (mkShape polygon [VPoint (P 3 0); VPoint (P 0 2); VPoint (P 2 0)]
            [] 0 false)
    = map VPoint [P 3 0; P 0 2; P 2 0]
  ∧ nearestVertex (λ p, Qabs (px p) + Qabs (py p))%Q
      (mkShape polygon [VPoint (P 3 0); VPoint (P 0 2); VPoint (P 2 0)]
         [] 0 false) (P 0 0) 5
    = Ok (Some 1).
Proof.
  split; [reflexivity|].
  destruct (nearestVertex_minimal (λ p, Qabs (px p) + Qabs (py p))%Q (P 0 0) 5
              (mkShape polygon [VPoint (P 3 0); VPoint (P 0 2); VPoint (P 2 0)]
                 [] 0 false)
              [P 3 0; P 0 2; P 2 0] eq_refl) as (r & Hr & _).
  rewrite Hr. vm_compute in Hr. injection Hr as <-. reflexivity.
Defined.

(** ** Rectangles *)



Lemma isect_line_level p1 p2 pos :
  (py p1 == py p2)%Q → isect_line p1 p2 pos = 0.
Proof.
  intros H. unfold isect_line. apply Qeq_bool_iff in H. by rewrite H.
Qed.





Section rectangles.
Variable sqrt : Q → Q.
Variable curve_winding : PathOp → QPointF → QPointF → Z.


End rectangles.



(** ** Independence of a copy *)

Section frame.
Variable F : gset loc.
Variable h0 : heap.
Variable c : loc.

Lemma hoare_ret {A : Type} (a : A) (Q : A → Prop) :
  Q a → hoare F h0 c (mret a) Q.
Proof. intros HQ h Hinv. split; [done|]. by intros a' [= <-]. Qed.

Lemma hoare_raise {A : Type} (e : exn) (Q : A → Prop) :
  hoare F h0 c (raise e) Q.
Proof. intros h Hinv. split; [done|]. intros a' H. discriminate H. Qed.

Lemma hoare_lift {A : Type} (r : result A) :
  hoare F h0 c (lift r) (λ a, r = Ok a).
Proof. intros h Hinv. split; [done|]. by intros a' H. Qed.

Lemma hoare_bind {A B : Type} (m : M A) (k : A → M B)
    (Q : A → Prop) (R : B → Prop) :
  hoare F h0 c m Q → (∀ a, Q a → hoare F h0 c (k a) R) →
  hoare F h0 c (m ≫= k) R.
Proof.
  intros Hm Hk h Hinv. destruct (Hm h Hinv) as [Hinv' HQ].
  unfold mbind, M_bind. destruct (m h) as [[a|e] h'] eqn:Hmh; simpl in *.
  - apply (Hk a (HQ a eq_refl) h' Hinv').
  - split; [done|]. intros b H. discriminate H.
Qed.

Lemma hoare_weaken {A : Type} (m : M A) (Q R : A → Prop) :
  hoare F h0 c m Q → (∀ a, Q a → R a) → hoare F h0 c m R.
Proof.
  intros Hm HQR h Hinv. destruct (Hm h Hinv) as [Hinv' HQ].
  split; [done|]. intros a Ha. by apply HQR, HQ.
Qed.

Lemma hoare_catch {A : Type} (m : M A) (Q : A → Prop) :
  hoare F h0 c m Q → hoare F h0 c (h_catch_NoPointError m) Q.
Proof.
  intros Hm h Hinv. destruct (Hm h Hinv) as [Hinv' HQ].
  unfold h_catch_NoPointError.
  destruct (m h) as [[a|[]] h'] eqn:Hmh; simpl in *; split; try done.
Qed.

(** Writing an object that is not in [F], at a place that is neither [c]
    nor the list [c.segments]. *)
Lemma frame_inv_store (l : loc) (cl : cell) (h : heap) :
  frame_inv F h0 c h →
  l ∉ F → l ≠ c →
  (∀ oc ls, h !! c = Some (CShape oc) → l = o_segments oc →
     cl = CSegments ls → ∀ x, x ∈ ls → x ∉ F) →
  (∀ oc ls, h !! c = Some (CShape oc) → l ≠ o_segments oc →
     h !! o_segments oc = Some (CSegments ls) → ∀ x, x ∈ ls → x ∉ F) →
  frame_inv F h0 c (<[l := cl]> h).
Proof.
  intros (Hdom & Hsame & HcF & oc & Hc & Hp & Hs & Hls) HlF Hlc Hnew Hold.
  split; [rewrite dom_insert; set_solver|].
  split.
  { intros x Hx. rewrite lookup_insert_ne by (intros ->; done). by apply Hsame. }
  split; [done|]. exists oc.
  split; [by rewrite lookup_insert_ne|]. split; [done|]. split; [done|].
  intros ls Hl. destruct (decide (l = o_segments oc)) as [->|Hne].
  - rewrite lookup_insert_eq in Hl. injection Hl as ->. by eapply Hnew.
  - rewrite lookup_insert_ne in Hl by done. by eapply Hold.
Qed.

Lemma hoare_get_obj : hoare F h0 c (get_obj c) (λ _, True).
Proof.
  intros h Hinv. unfold get_obj, load, mbind, M_bind.
  destruct (h !! c) as [[]|]; simpl; split; done.
Qed.

Lemma hoare_get_points : hoare F h0 c (get_points c) (λ _, True).
Proof.
  intros h Hinv. unfold get_points, get_obj, load, mbind, M_bind.
  destruct (h !! c) as [[| | |o]|]; simpl; try (split; done).
  destruct (h !! o_points o) as [[]|]; simpl; split; done.
Qed.

Lemma hoare_get_seglocs :
  hoare F h0 c (get_seglocs c) (λ ls, ∀ l, l ∈ ls → l ∉ F).
Proof.
  intros h Hinv. unfold get_seglocs, get_obj, load, mbind, M_bind.
  pose proof Hinv as (_ & _ & _ & oc & Hc & _ & _ & Hls).
  rewrite Hc. simpl.
  destruct (h !! o_segments oc) as [[| ls | |]|] eqn:Hs; simpl;
    (split; [done|]); intros a Ha; try discriminate Ha.
  injection Ha as <-. by apply Hls.
Qed.

Lemma hoare_get_seg (l : loc) : hoare F h0 c (get_seg l) (λ _, True).
Proof.
  intros h Hinv. unfold get_seg, load, mbind, M_bind.
  destruct (h !! l) as [[]|]; simpl; split; done.
Qed.

Lemma hoare_put_scalars (n : Z) (b : bool) :
  hoare F h0 c (put_scalars c n b) (λ _, True).
Proof.
  intros h Hinv. unfold put_scalars, get_obj, load, store, mbind, M_bind.
  pose proof Hinv as (Hdom & Hsame & HcF & oc & Hc & Hp & Hs & Hls).
  rewrite Hc. simpl. split; [|done].
  split; [rewrite dom_insert; set_solver|]. split.
  { intros x Hx. rewrite lookup_insert_ne by (intros ->; done). by apply Hsame. }
  split; [done|]. eexists. split; [apply lookup_insert_eq|]. simpl.
  split; [done|]. split; [done|]. intros ls Hl.
  destruct (decide (c = o_segments oc)) as [He|Hne].
  - rewrite <- He, lookup_insert_eq in Hl. discriminate Hl.
  - rewrite lookup_insert_ne in Hl by done. by apply Hls.
Qed.

Lemma hoare_rebind_points (l : loc) :
  l ∉ F → hoare F h0 c (rebind_points c l) (λ _, True).
Proof.
  intros HlF h Hinv.
  unfold rebind_points, get_obj, load, store, mbind, M_bind.
  pose proof Hinv as (Hdom & Hsame & HcF & oc & Hc & Hp & Hs & Hls).
  rewrite Hc. simpl. split; [|done].
  split; [rewrite dom_insert; set_solver|]. split.
  { intros x Hx. rewrite lookup_insert_ne by (intros ->; done). by apply Hsame. }
  split; [done|]. eexists. split; [apply lookup_insert_eq|]. simpl.
  split; [done|]. split; [done|]. intros ls Hl.
  destruct (decide (c = o_segments oc)) as [He|Hne].
  - rewrite <- He, lookup_insert_eq in Hl. discriminate Hl.
  - rewrite lookup_insert_ne in Hl by done. by apply Hls.
Qed.

Lemma hoare_put_points (ps : list value) :
  hoare F h0 c (put_points c ps) (λ _, True).
Proof.
  intros h Hinv. unfold put_points, get_obj, load, store, mbind, M_bind.
  pose proof Hinv as (Hdom & Hsame & HcF & oc & Hc & Hp & Hs & Hls).
  rewrite Hc. simpl.
  destruct (h !! o_points oc) as [[| | |]|] eqn:Hl; simpl; try (split; done).
  split; [|done]. apply frame_inv_store; try done.
  - intros He. rewrite He in Hl. congruence.
  - intros oc' ls Hc' _ Hl'. rewrite Hc in Hc'. injection Hc' as <-.
    by apply Hls.
Qed.

Lemma hoare_put_seglocs (ls : list loc) :
  (∀ l, l ∈ ls → l ∉ F) → hoare F h0 c (put_seglocs c ls) (λ _, True).
Proof.
  intros Hnew h Hinv.
  unfold put_seglocs, get_obj, load, store, mbind, M_bind.
  pose proof Hinv as (Hdom & Hsame & HcF & oc & Hc & Hp & Hs & Hls).
  rewrite Hc. simpl.
  destruct (h !! o_segments oc) as [[| | |]|] eqn:Hl; simpl; try (split; done).
  split; [|done]. apply frame_inv_store; try done.
  - intros He. rewrite He in Hl. congruence.
  - intros oc' ls' _ _ [= <-]. done.
  - intros oc' ls' Hc' Hne. rewrite Hc in Hc'. injection Hc' as <-. done.
Qed.

Lemma hoare_put_seg (l : loc) (sg : Segment) :
  l ∉ F → hoare F h0 c (put_seg l sg) (λ _, True).
Proof.
  intros HlF h Hinv. unfold put_seg, load, store, mbind, M_bind.
  pose proof Hinv as (Hdom & Hsame & HcF & oc & Hc & Hp & Hs & Hls).
  destruct (h !! l) as [[| | |]|] eqn:Hl; simpl; try (split; done).
  split; [|done]. apply frame_inv_store; try done.
  - intros ->. congruence.
  - intros oc' ls Hc' _ Hl'. rewrite Hc in Hc'. injection Hc' as <-.
    by apply Hls.
Qed.

Lemma hoare_new_cell (cl : cell) :
  (∀ ls, cl ≠ CSegments ls) →
  hoare F h0 c (new_cell cl) (λ l, l ∉ F).
Proof.
  intros Hcl h Hinv. unfold new_cell, alloc. simpl.
  pose proof Hinv as (Hdom & Hsame & HcF & oc & Hc & Hp & Hs & Hls).
  pose proof (is_fresh (dom h)) as Hfresh.
  assert (HfF : fresh (dom h) ∉ F) by set_solver.
  split.
  - apply frame_inv_store; try done.
    + intros He. apply Hfresh. rewrite He. by apply elem_of_dom_2 in Hc.
    + intros oc' ls _ _ H. by apply Hcl in H.
    + intros oc' ls Hc' _ Hl'. rewrite Hc in Hc'. injection Hc' as <-.
      by apply Hls.
  - by intros l [= <-].
Qed.
End frame.

Lemma py_getitem_elem {A : Type} (l : list A) (i : Z) (x : A) :
  py_getitem l i = Ok x → x ∈ l.
Proof.
  unfold py_getitem. destruct (norm_index l i) as [k|]; [|done].
  destruct (l !! k) as [y|] eqn:Hk; [|done].
  intros [= <-]. by eapply list_elem_of_lookup_2.
Qed.

Section methods.
Variable F : gset loc.
Variable h0 : heap.
Variable c : loc.

(** One step of a method body: a primitive, then the rest. *)
Ltac hprim :=
  first
    [ apply hoare_get_obj | apply hoare_get_points | apply hoare_get_seglocs
    | apply hoare_get_seg | apply hoare_lift | apply hoare_put_scalars
    | apply hoare_put_points | apply hoare_raise
    | apply hoare_new_cell; done
    | apply hoare_ret; done ].

Ltac hseq := eapply hoare_bind; [hprim | intros ? ?].

Lemma hoare_close : hoare F h0 c (h_close c) (λ _, True).
Proof. unfold h_close. hseq. hprim. Qed.

Lemma hoare_setOpen : hoare F h0 c (h_setOpen c) (λ _, True).
Proof. unfold h_setOpen. hseq. hprim. Qed.

Lemma hoare_addSegment b n : hoare F h0 c (h_addSegment c b n) (λ _, True).
Proof.
  unfold h_addSegment. eapply hoare_bind; [apply hoare_get_seglocs|].
  intros ls Hls. do 2 hseq.
  eapply hoare_bind; [apply hoare_new_cell; done|]. intros l Hl.
  apply hoare_put_seglocs. intros x Hx. unfold py_append in Hx.
  apply elem_of_app in Hx as [Hx|Hx]; [by apply Hls|].
  by apply list_elem_of_singleton in Hx as ->.
Qed.

Lemma hoare_addPointToSegment pt seg_id :
  hoare F h0 c (h_addPointToSegment c pt seg_id) (λ _, True).
Proof.
  unfold h_addPointToSegment. eapply hoare_bind; [apply hoare_get_seglocs|].
  intros ls Hls. eapply hoare_bind; [apply hoare_lift|]. intros l Hl.
  hseq. apply hoare_put_seg. apply Hls. simpl in Hl.
  by eapply py_getitem_elem.
Qed.

Lemma hoare_insertPoint i pt : hoare F h0 c (h_insertPoint c i pt) (λ _, True).
Proof. unfold h_insertPoint. hseq. hprim. Qed.

Lemma hoare_removePoint i : hoare F h0 c (h_removePoint c i) (λ _, True).
Proof. unfold h_removePoint. do 2 hseq. hprim. Qed.

Lemma hoare_popPoint : hoare F h0 c (h_popPoint c) (λ _, True).
Proof.
  unfold h_popPoint. hseq. destruct a as [|v ps]; [hprim|].
  do 2 hseq. hprim.
Qed.

Lemma hoare_moveBy offset : hoare F h0 c (h_moveBy c offset) (λ _, True).
Proof.
  unfold h_moveBy. do 2 hseq.
  eapply hoare_bind; [apply hoare_new_cell; done|]. intros l Hl.
  by apply hoare_rebind_points.
Qed.

Lemma hoare_moveVertexBy i offset :
  hoare F h0 c (h_moveVertexBy c i offset) (λ _, True).
Proof. unfold h_moveVertexBy. do 4 hseq. hprim. Qed.

Lemma hoare_createSegment pt d new_p :
  hoare F h0 c (h_createSegment c pt d new_p) (λ _, True).
Proof.
  unfold h_createSegment. do 2 hseq.
  destruct (value_eqb pt a0); [apply hoare_addSegment|].
  eapply hoare_bind; [apply hoare_insertPoint|]. intros _ _.
  do 2 hseq. apply hoare_addSegment.
Qed.

Lemma hoare_addPoint pt is_release new_p :
  hoare F h0 c (h_addPoint c pt is_release new_p) (λ _, True).
Proof.
  unfold h_addPoint. hseq.
  destruct (is_release && ShapeType_eqb (o_shape_type a) curve).
  - do 2 hseq. destruct (value_eqb pt a1 && (py_len a0 =? 1)); [hprim|].
    eapply hoare_bind; [apply hoare_get_seglocs|]. intros ls _.
    destruct ((py_len ls =? 0) && (py_len a0 =? 1)); [hseq; hprim|].
    apply hoare_catch.
    eapply hoare_bind; [apply hoare_createSegment|]. intros _ _.
    do 2 hseq. destruct (value_eqb pt a3); [|hprim].
    do 2 hseq. apply hoare_close.
  - hseq. destruct a0 as [|v ps]; [hprim|].
    destruct (value_eqb pt v); [|hprim].
    eapply hoare_bind; [|intros _ _; apply hoare_close].
    destruct (ShapeType_eqb (o_shape_type a) curve && _);
      [apply hoare_addSegment | hprim].
Qed.

Lemma hoare_apply_mutation m : hoare F h0 c (apply_mutation c m) (λ _, True).
Proof.
  destruct m; simpl.
  - apply hoare_addPoint.
  - apply hoare_createSegment.
  - apply hoare_addSegment.
  - apply hoare_addPointToSegment.
  - apply hoare_insertPoint.
  - apply hoare_removePoint.
  - eapply hoare_bind; [apply hoare_popPoint|]. intros _ _. hprim.
  - apply hoare_moveBy.
  - apply hoare_moveVertexBy.
  - apply hoare_close.
  - apply hoare_setOpen.
Qed.

Lemma frame_inv_run ms : ∀ h,
  frame_inv F h0 c h → frame_inv F h0 c (run_mutations c ms h).
Proof.
  induction ms as [|m ms IH]; intros h Hinv; [done|].
  simpl. apply IH. by apply hoare_apply_mutation.
Qed.
End methods.

(** Membership in a union of singletons that names the element. *)
Ltac in_union :=
  rewrite ?elem_of_union, ?elem_of_singleton; intuition (reflexivity || eauto).

Lemma read_segments_ext (h h' : heap) (ls : list loc) :
  (∀ l, l ∈ ls → h' !! l = h !! l) →
  read_segments h' ls = read_segments h ls.
Proof.
  induction ls as [|l ls IH]; intros H; [done|].
  simpl. rewrite (H l) by (by left).
  rewrite IH; [done|]. intros x Hx. apply H. by right.
Qed.

Lemma read_segments_dom (h : heap) (ls : list loc) (ss : list Segment) :
  read_segments h ls = Some ss → ∀ l, l ∈ ls → l ∈ dom h.
Proof.
  revert ss. induction ls as [|x ls IH]; intros ss H l Hl.
  - by apply elem_of_nil in Hl.
  - simpl in H. destruct (h !! x) as [[| |s|]|] eqn:Hx; try done.
    destruct (read_segments h ls) as [ss'|] eqn:Hr; [|done].
    apply elem_of_cons in Hl as [->|Hl].
    + by apply elem_of_dom_2 in Hx.
    + by eapply IH.
Qed.

Lemma read_shape_inv (h : heap) (s : loc) (v : Shape) :
  read_shape h s = Some v →
  ∃ o ls,
    h !! s = Some (CShape o)
    ∧ h !! o_points o = Some (CPoints (points v))
    ∧ h !! o_segments o = Some (CSegments ls)
    ∧ read_segments h ls = Some (segments v)
    ∧ v = mkShape (o_shape_type o) (points v) (segments v)
            (o_points_in_segments o) (o_closed o)
    ∧ footprint h s
      = {[s]} ∪ {[o_points o]} ∪ {[o_segments o]} ∪ list_to_set ls.
Proof.
  unfold read_shape, footprint.
  destruct (h !! s) as [[| | |o]|] eqn:Hs; try done.
  destruct (h !! o_points o) as [[ps| | |]|] eqn:Hp; try done.
  destruct (h !! o_segments o) as [[|ls| |]|] eqn:Hl; try done.
  destruct (read_segments h ls) as [ss|] eqn:Hr; [|done].
  intros [= <-]. exists o, ls. done.
Qed.

Lemma footprint_dom (h : heap) (s : loc) (v : Shape) :
  read_shape h s = Some v → footprint h s ⊆ dom h.
Proof.
  intros H. destruct (read_shape_inv h s v H)
    as (o & ls & Hs & Hp & Hl & Hr & _ & ->).
  apply elem_of_dom_2 in Hs, Hp, Hl.
  pose proof (read_segments_dom h ls _ Hr) as Hd.
  intros x Hin. apply elem_of_union in Hin as [Hin|Hin].
  - rewrite !elem_of_union, !elem_of_singleton in Hin.
    destruct Hin as [[->| ->]| ->]; done.
  - apply elem_of_list_to_set in Hin. by apply Hd.
Qed.

Lemma read_shape_ext (h h' : heap) (s : loc) (v : Shape) :
  read_shape h s = Some v →
  (∀ l, l ∈ footprint h s → h' !! l = h !! l) →
  read_shape h' s = Some v.
Proof.
  intros H Hext. destruct (read_shape_inv h s v H)
    as (o & ls & Hs & Hp & Hl & Hr & Hv & HF).
  rewrite HF in Hext. unfold read_shape.
  rewrite (Hext s), Hs by in_union.
  rewrite (Hext (o_points o)), Hp by in_union.
  rewrite (Hext (o_segments o)), Hl by in_union.
  rewrite (read_segments_ext h h' ls), Hr.
  - by rewrite Hv at 3.
  - intros l Hin. apply Hext. apply elem_of_union_r.
    by apply elem_of_list_to_set.
Qed.

Lemma copy_segments_spec (h0 : heap) (ls : list loc) :
  ∀ (h : heap) (memo : gmap loc loc) (ss : list Segment),
    dom h0 ⊆ dom h →
    (∀ l, l ∈ dom h0 → h !! l = h0 !! l) →
    memo_ok h0 h memo →
    read_segments h0 ls = Some ss →
    ∃ h' memo' out,
      copy_segments h memo ls = Some (h', memo', out)
      ∧ dom h ⊆ dom h'
      ∧ (∀ l, l ∈ dom h → h' !! l = h !! l)
      ∧ (∀ l, l ∈ out → l ∉ dom h0)
      ∧ read_segments h' out = Some ss.
Proof.
  induction ls as [|x ls IH]; intros h memo ss Hdom Hext Hmemo Hread.
  - simpl in *. injection Hread as <-. exists h, memo, []. simpl.
    repeat split; try done. intros l Hl. by apply elem_of_nil in Hl.
  - simpl in Hread.
    destruct (h0 !! x) as [[| |s|]|] eqn:Hx; try done.
    destruct (read_segments h0 ls) as [ss'|] eqn:Hr; [|done].
    injection Hread as <-. simpl.
    destruct (memo !! x) as [x'|] eqn:Hm.
    + destruct (IH h memo ss' Hdom Hext Hmemo eq_refl)
        as (h' & memo' & out & -> & Hd' & He' & Hout & Hro).
      exists h', memo', (x' :: out).
      destruct (Hmemo x x' Hm) as (Hn & Hin & Hcell).
      split; [done|]. split; [done|]. split; [done|]. split.
      * intros l Hl. apply elem_of_cons in Hl as [->|Hl]; [done|by apply Hout].
      * simpl. by rewrite (He' x' Hin), Hcell, Hx, Hro.
    + assert (Hxh : h !! x = Some (CSegment s)).
      { rewrite Hext; [done|]. by apply elem_of_dom_2 in Hx. }
      rewrite Hxh. unfold alloc. simpl.
      pose proof (is_fresh (dom h)) as Hfresh.
      set (x' := fresh (dom h)) in *.
      destruct (IH (<[x' := CSegment s]> h) (<[x := x']> memo) ss')
        as (h' & memo' & out & -> & Hd' & He' & Hout & Hro); try done.
      * rewrite dom_insert. set_solver.
      * intros l Hl. rewrite lookup_insert_ne; [by apply Hext|].
        intros <-. apply Hfresh. by apply Hdom.
      * intros l l' Hl. destruct (decide (l = x)) as [->|Hne].
        -- rewrite lookup_insert_eq in Hl. injection Hl as <-.
           split; [set_solver|]. split; [rewrite dom_insert; set_solver|].
           by rewrite lookup_insert_eq, Hx.
        -- rewrite lookup_insert_ne in Hl by done.
           destruct (Hmemo l l' Hl) as (Hn & Hin & Hcell).
           split; [done|]. split; [rewrite dom_insert; set_solver|].
           rewrite lookup_insert_ne; [done|]. intros <-. by apply Hfresh.
      * exists h', memo', (x' :: out). split; [done|].
        split; [rewrite dom_insert in Hd'; set_solver|]. split.
        { intros l Hl. rewrite He' by (rewrite dom_insert; set_solver).
          rewrite lookup_insert_ne; [done|]. intros <-. by apply Hfresh. }
        split.
        { intros l Hl. apply elem_of_cons in Hl as [->|Hl]; [set_solver|].
          by apply Hout. }
        simpl. rewrite He' by (rewrite dom_insert; set_solver).
        by rewrite lookup_insert_eq, Hro.
Qed.

Lemma copy_spec (h : heap) (s : loc) (v : Shape) :
  read_shape h s = Some v →
  ∃ h1 c,
    copy h s = Some (h1, c)
    ∧ (∀ l, l ∈ dom h → h1 !! l = h !! l)
    ∧ read_shape h1 c = Some v
    ∧ frame_inv (footprint h s) h1 c h1.
Proof.
  intros Hread.
  destruct (read_shape_inv h s v Hread)
    as (o & ls & Hs & Hp & Hl & Hr & Hv & HF).
  pose proof (footprint_dom h s v Hread) as HFdom.
  unfold copy. rewrite Hs, Hp, Hl. unfold alloc. simpl.
  pose proof (is_fresh (dom h)) as Hf1.
  set (lp := fresh (dom h)) in *.
  set (ha := <[lp := CPoints (points v)]> h).
  assert (Hda : dom h ⊆ dom ha) by apply dom_insert_subseteq.
  assert (Hea : ∀ l, l ∈ dom h → ha !! l = h !! l).
  { intros l Hin. unfold ha. rewrite lookup_insert_ne; [done|].
    intros <-. by apply Hf1. }
  destruct (copy_segments_spec h ls ha ∅ (segments v) Hda Hea)
    as (h2 & memo' & out & -> & Hd2 & He2 & Hout & Hro); [|done|].
  { intros l l' Hm. by rewrite lookup_empty in Hm. }
  pose proof (is_fresh (dom h2)) as Hf2.
  set (lsg := fresh (dom h2)) in *.
  set (h3 := <[lsg := CSegments out]> h2).
  pose proof (is_fresh (dom h3)) as Hf3.
  set (c := fresh (dom h3)) in *.
  set (oc := mkObj (o_shape_type o) lp lsg (o_points_in_segments o) (o_closed o)).
  assert (Hd3 : dom h2 ⊆ dom h3) by apply dom_insert_subseteq.
  assert (Hlp2 : h2 !! lp = Some (CPoints (points v))).
  { rewrite He2; [apply lookup_insert_eq|].
    apply elem_of_dom. unfold ha. rewrite lookup_insert_eq. eauto. }
  assert (Hlp_dom : lp ∈ dom h2) by (by apply elem_of_dom_2 in Hlp2).
  assert (Hne_lsg_lp : lsg ≠ lp) by (intros He; apply Hf2; by rewrite He).
  assert (Hc_lsg : c ≠ lsg).
  { intros He. apply Hf3. rewrite He. apply elem_of_dom. unfold h3.
    rewrite lookup_insert_eq. eauto. }
  assert (Hc_h2 : c ∉ dom h2) by (intros Hin; apply Hf3; by apply Hd3).
  assert (Hout2 : ∀ l, l ∈ out → l ∈ dom h2)
    by (by apply (read_segments_dom h2 out (segments v))).
  exists (<[c := CShape oc]> h3), c. split; [done|].
  assert (Hold : ∀ l, l ∈ dom h → <[c := CShape oc]> h3 !! l = h !! l).
  { intros l Hin. assert (l ∈ dom h2) by (apply Hd2, Hda, Hin).
    rewrite lookup_insert_ne by (intros <-; done).
    unfold h3. rewrite lookup_insert_ne by (intros <-; done).
    rewrite He2 by (by apply Hda). by apply Hea. }
  split; [done|]. split; [|split; [|split; [|split]]].
  - unfold read_shape. rewrite lookup_insert_eq. simpl.
    rewrite lookup_insert_ne by (intros He; apply Hc_h2; by rewrite He).
    unfold h3 at 1. rewrite lookup_insert_ne by done. rewrite Hlp2.
    rewrite lookup_insert_ne by done. unfold h3 at 1.
    rewrite lookup_insert_eq.
    rewrite (read_segments_ext h2), Hro.
    + by rewrite Hv at 3.
    + intros l Hin. specialize (Hout2 l Hin).
      rewrite lookup_insert_ne by (intros <-; done).
      unfold h3. by rewrite lookup_insert_ne by (intros <-; done).
  - intros l Hin. apply HFdom in Hin. rewrite !dom_insert.
    apply elem_of_union_r. unfold h3. rewrite dom_insert.
    apply elem_of_union_r. by apply Hd2, Hda.
  - done.
  - intros Hin. apply HFdom in Hin. apply Hc_h2. by apply Hd2, Hda.
  - exists oc. split; [apply lookup_insert_eq|]. simpl.
    split; [by intros Hin; apply HFdom in Hin|].
    split; [by intros Hin; apply Hf2, Hd2, Hda, HFdom|].
    intros ls' Hls'. rewrite lookup_insert_ne in Hls' by done.
    unfold h3 in Hls'. rewrite lookup_insert_eq in Hls'.
    injection Hls' as <-. intros l Hin HlF.
    by apply (Hout l Hin), HFdom.
Qed.

(** C9. [copy()] returns a new instance that reads as the same shape and
    shares no list with the original: its [points] list, its [segments]
    list and every segment list are other objects.  Whatever calls are then
    made on the copy ([addPoint], [createSegment], [addSegment],
    [addPointToSegment], [insertPoint], [removePoint], [popPoint],
    [moveBy], [moveVertexBy], [close], [setOpen], in any number and order,
    also when they raise), the original reads as the same shape as before:
    same points, same segments. *)
Theorem copy_independent (h : heap) (s : loc) (v : Shape) :
  read_shape h s = Some v →
  ∃ h1 c,
    copy h s = Some (h1, c)
    ∧ c ≠ s
    ∧ read_shape h1 c = Some v
    ∧ read_shape h1 s = Some v
    ∧ (∃ o oc ls lsc,
         h1 !! s = Some (CShape o) ∧ h1 !! c = Some (CShape oc)
         ∧ h1 !! o_segments o = Some (CSegments ls)
         ∧ h1 !! o_segments oc = Some (CSegments lsc)
         ∧ o_points oc ≠ o_points o
         ∧ o_segments oc ≠ o_segments o
         ∧ ∀ l, l ∈ lsc → l ∉ ls)
    ∧ ∀ ms, read_shape (run_mutations c ms h1) s = Some v.
Proof.
  intros Hread.
  destruct (copy_spec h s v Hread) as (h1 & c & Hcopy & Hold & Hrc & Hinv).
  pose proof (footprint_dom h s v Hread) as HFdom.
  assert (Hrs : read_shape h1 s = Some v).
  { apply (read_shape_ext h h1 s v Hread). intros l Hl. by apply Hold, HFdom. }
  destruct (read_shape_inv h s v Hread)
    as (o & ls & Hs & Hp & Hl & Hr & Hv & HF).
  pose proof Hinv as (_ & _ & HcF & oc & Hc & HpF & HsF & HlsF).
  destruct (read_shape_inv h1 c v Hrc)
    as (oc' & lsc & Hc' & _ & Hlc & _ & _ & _).
  rewrite Hc in Hc'. injection Hc' as <-.
  exists h1, c. split; [done|].
  split; [intros ->; apply HcF; rewrite HF; in_union|].
  split; [done|]. split; [done|]. split.
  - exists o, oc, ls, lsc.
    split; [rewrite Hold; [done|by apply elem_of_dom_2 in Hs]|].
    split; [done|].
    split; [rewrite Hold; [done|by apply elem_of_dom_2 in Hl]|].
    split; [done|].
    split; [intros He; apply HpF; rewrite He, HF; in_union|].
    split; [intros He; apply HsF; rewrite He, HF; in_union|].
    intros l Hin Hin'. apply (HlsF lsc Hlc l Hin). rewrite HF.
    apply elem_of_union_r. by apply elem_of_list_to_set.
  - intros ms.
    pose proof (frame_inv_run (footprint h s) h1 c ms h1 Hinv)
      as (_ & Hsame & _).
    apply (read_shape_ext h1); [done|].
    intros l Hin. apply Hsame.
    assert (Hfp : footprint h1 s = footprint h s).
    { destruct (read_shape_inv h1 s v Hrs)
        as (o1 & ls1 & Hs1 & _ & Hl1 & _ & _ & HF1).
      rewrite Hold in Hs1 by (by apply elem_of_dom_2 in Hs).
      rewrite Hs in Hs1. injection Hs1 as <-.
      rewrite Hold in Hl1 by (by apply elem_of_dom_2 in Hl).
      rewrite Hl in Hl1. injection Hl1 as <-.
      by rewrite HF1, HF. }
    by rewrite <- Hfp.
Qed.

Lemma copy_independent_witness :
  read_shape example_store 1%positive = Some example_shape
  ∧ ∃ h1 c,
      copy example_store 1%positive = Some (h1, c)
      ∧ read_shape h1 c = Some example_shape
      ∧ ∀ ms, read_shape (run_mutations c ms h1) 1%positive = Some example_shape.
Proof.
  assert (H : read_shape example_store 1%positive = Some example_shape)
    by (vm_compute; reflexivity).
  split; [exact H|].
  destruct (copy_independent example_store 1%positive example_shape H)
    as (h1 & c & Hc & _ & Hrc & _ & _ & Hms).
  exists h1, c. split; [exact Hc|]. split; [exact Hrc|exact Hms].
Defined.

(** The methods on the store compute what the methods on [Shape] values
    do: three calls on the copy of the example, read back, against the same
    calls on the value; the original still reads as before. *)
Example copy_then_edit :
  ∃ h1 c sh',
    copy example_store 1%positive = Some (h1, c)
    ∧ (sh1 ← addPointToSegment example_shape (VInt 0) 0;
       addPoint (insertPoint sh1 0 (VInt 7)) (VPoint (P 4 4)) true
         (VPoint (P 9 9))) = Ok sh'
    ∧ read_shape
        (run_mutations c
           [MAddPointToSegment (VInt 0) 0; MInsertPoint 0 (VInt 7);
            MAddPoint (VPoint (P 4 4)) true (VPoint (P 9 9))] h1) c
      = Some sh'
    ∧ read_shape
        (run_mutations c
           [MAddPointToSegment (VInt 0) 0; MInsertPoint 0 (VInt 7);
            MAddPoint (VPoint (P 4 4)) true (VPoint (P 9 9))] h1) 1%positive
      = Some example_shape.
Proof.
  destruct (copy example_store 1%positive) as [[h1 c]|] eqn:Hc;
    vm_compute in Hc; [|discriminate Hc].
  injection Hc as <- <-. eexists _, _, _. split; [reflexivity|].
  split; [vm_compute; reflexivity|]. split; vm_compute; reflexivity.
Qed.

(** * Further properties *)

(** ** The [shape_type] setter *)

(** X1. The setter accepts [None], which it stores as polygon, and exactly
    the seven type names, each stored as its own type; every other string
    is rejected with [ValueError]. *)
Theorem set_shape_type_names (v : option string) (t : ShapeType) :
  (set_shape_type v = Ok t
   ↔ (v = None ∧ t = polygon) ∨ v = Some (shape_type_name t))
  ∧ (∀ e, set_shape_type v = Raise e →
       e = ValueError ∧ ∀ t', v ≠ Some (shape_type_name t')).
Proof.
  assert (Hname : ∀ s t0, name_lookup shape_type_names s = Some t0
                    ↔ s = shape_type_name t0).
  { intros s t0. unfold shape_type_names, name_lookup. split.
    - repeat match goal with
             | |- (if ?b then _ else _) = _ → _ =>
                 let H := fresh "H" in
                 destruct b eqn:H;
                   [apply String.eqb_eq in H; intros Heq;
                    injection Heq as <-; exact H|]
             end.
      discriminate.
    - intros ->. by destruct t0. }
  unfold set_shape_type. split.
  - destruct v as [s|].
    + destruct (name_lookup shape_type_names s) as [t0|] eqn:Hl.
      * apply Hname in Hl. split.
        -- intros [= <-]. right. by rewrite Hl.
        -- intros [[? _]|[= ->]]; [done|].
           f_equal. destruct t0, t; simpl in Hl; congruence.
      * split; [discriminate|]. intros [[? _]|[= ->]]; [done|].
        assert (Hs : name_lookup shape_type_names (shape_type_name t) = Some t)
          by (by apply Hname).
        congruence.
    + simpl. split.
      * intros [= <-]. by left.
      * intros [[_ ->]|?]; done.
  - intros e. destruct v as [s|]; [|discriminate].
    destruct (name_lookup shape_type_names s) as [t0|] eqn:Hl; [discriminate|].
    intros [= <-]. split; [done|]. intros t' [= ->].
    assert (Hs : name_lookup shape_type_names (shape_type_name t') = Some t')
      by (by apply Hname).
    congruence.
Qed.

(** ** Appending, popping, inserting and removing *)

Lemma shape_eta (sh : Shape) : set_points sh (points sh) = sh.
Proof. by destruct sh. Qed.

Lemma set_points_twice sh ps ps' :
  set_points (set_points sh ps) ps' = set_points sh ps'.
Proof. reflexivity. Qed.

(** X2. An [addPoint] without release whose point differs from the first
    stored point appends it, whatever the shape type, and [popPoint] then
    gives that point back and restores the shape; on a shape without
    points [popPoint] returns [None] and changes nothing. *)
Theorem popPoint_undoes_addPoint (sh : Shape) (pt new_p : value) :
  (∀ first, head (points sh) = Some first → value_eqb pt first = false) →
  addPoint sh pt false new_p = Ok (set_points sh (points sh ++ [pt]))
  ∧ popPoint (set_points sh (points sh ++ [pt])) = (Some pt, sh)
  ∧ (points sh = [] → popPoint sh = (None, sh)).
Proof.
  intros Hfirst. split; [|split].
  - unfold addPoint. simpl. destruct (points sh) as [|v l] eqn:Hp; [done|].
    by rewrite (Hfirst v eq_refl).
  - unfold popPoint. simpl. rewrite py_pop_last.
    by rewrite set_points_twice, shape_eta.
  - intros Hp. unfold popPoint. by rewrite Hp.
Qed.

Lemma popPoint_undoes_addPoint_witness :
  (∀ first,
     head (points (mkShape polygon [VPoint (P 0 0)] [] 0 false)) = Some first →
     value_eqb (VPoint (P 3 4)) first = false)
  ∧ popPoint (set_points (mkShape polygon [VPoint (P 0 0)] [] 0 false)
                [VPoint (P 0 0); VPoint (P 3 4)])
    = (Some (VPoint (P 3 4)), mkShape polygon [VPoint (P 0 0)] [] 0 false).
Proof.
  assert (H : ∀ first,
     head (points (mkShape polygon [VPoint (P 0 0)] [] 0 false)) = Some first →
     value_eqb (VPoint (P 3 4)) first = false)
    by (intros first [= <-]; reflexivity).
  split; [exact H|].
  destruct (popPoint_undoes_addPoint
              (mkShape polygon [VPoint (P 0 0)] [] 0 false)
              (VPoint (P 3 4)) new_p_default H) as (_ & Hpop & _).
  exact Hpop.
Defined.

Lemma delete_after_insert {A : Type} (l : list A) (k : nat) (x : A) :
  (k < length l)%nat →
  delete (S k) (take k l ++ x :: drop k l) = <[k := x]> l.
Proof.
  revert k. induction l as [|y l IH]; intros k Hk; simpl in Hk; [lia|].
  destruct k as [|k]; simpl.
  - done.
  - f_equal. apply IH. lia.
Qed.

Lemma delete_inserted {A : Type} (l : list A) (k : nat) (x : A) :
  (k <= length l)%nat → delete k (take k l ++ x :: drop k l) = l.
Proof.
  revert k. induction l as [|y l IH]; intros k Hk; simpl in Hk.
  - by replace k with 0%nat by lia.
  - destruct k as [|k]; simpl; [done|]. f_equal. apply IH. lia.
Qed.

(** X3. [insertPoint(i, point)] followed by [removePoint(i)] restores the
    shape when 0 <= i <= n.  With a negative index it does not: the insert
    puts the point before the element n + i, the removal then takes that
    element out, and the point is left in its place. *)
Theorem insertPoint_then_removePoint (sh : Shape) (i : Z) (pt : value) :
  let n := py_len (points sh) in
  (0 <= i <= n → removePoint (insertPoint sh i pt) i = Ok sh)
  ∧ (- n <= i < 0 →
       removePoint (insertPoint sh i pt) i
       = Ok (set_points sh (<[Z.to_nat (n + i) := pt]> (points sh)))).
Proof.
  cbv zeta. unfold removePoint, insertPoint, py_pop. simpl. split; intros Hi.
  - destruct (norm_index (py_insert (points sh) i pt) i) as [k|] eqn:Hk.
    2:{ apply norm_index_None in Hk. rewrite py_insert_length in Hk. lia. }
    apply norm_index_Some in Hk as (Hlt & Hk & _).
    replace (i <? 0) with false in Hk by lia.
    assert (k = Z.to_nat i) as -> by lia.
    unfold py_insert in *. rewrite insert_pos_in_range in * by done.
    assert (Hlen : (Z.to_nat i <= length (points sh))%nat)
      by (unfold py_len in Hi; lia).
    rewrite lookup_app_r by (rewrite length_take; lia).
    rewrite length_take.
    replace (Z.to_nat i - Z.to_nat i `min` length (points sh))%nat with 0%nat
      by lia.
    simpl. rewrite delete_inserted by done. by destruct sh.
  - destruct (norm_index (py_insert (points sh) i pt) i) as [k|] eqn:Hk.
    2:{ apply norm_index_None in Hk. rewrite py_insert_length in Hk. lia. }
    apply norm_index_Some in Hk as (Hlt & Hk & _).
    replace (i <? 0) with true in Hk by lia.
    rewrite py_insert_length in Hk.
    assert (k = S (Z.to_nat (py_len (points sh) + i))) as -> by lia.
    unfold py_insert in *. rewrite insert_pos_negative in * by done.
    set (j := Z.to_nat (py_len (points sh) + i)) in *.
    assert (Hj : (j < length (points sh))%nat)
      by (unfold j, py_len in *; lia).
    destruct ((take j (points sh) ++ pt :: drop j (points sh)) !! S j)
      as [x|] eqn:Hx.
    + simpl. by rewrite delete_after_insert by done.
    + apply lookup_ge_None in Hx. rewrite length_app, length_take in Hx.
      simpl in Hx. rewrite length_drop in Hx. lia.
Qed.

(** ** Subscripts: [__len__], [__getitem__], [__setitem__] *)

Lemma norm_index_len {A B : Type} (l : list A) (l' : list B) (i : Z) :
  py_len l' = py_len l → norm_index l' i = norm_index l i.
Proof. intros H. unfold norm_index. by rewrite H. Qed.

Lemma norm_index_in_range {A : Type} (l : list A) (i : Z) :
  - py_len l <= i < py_len l →
  ∃ k, norm_index l i = Some k ∧ (k < length l)%nat
       ∧ Z.of_nat k = (if i <? 0 then i + py_len l else i).
Proof.
  intros Hi. destruct (norm_index l i) as [k|] eqn:Hk.
  - exists k. apply norm_index_Some in Hk as (? & ? & _). done.
  - apply norm_index_None in Hk. lia.
Qed.

Lemma py_setitem_spec {A : Type} (l : list A) (key : Z) (x : A) :
  - py_len l <= key < py_len l →
  ∃ l',
    py_setitem l key x = Ok l'
    ∧ py_getitem l' key = Ok x
    ∧ py_len l' = py_len l
    ∧ ∀ key', - py_len l <= key' < py_len l →
        key' ≠ key → key' ≠ key + py_len l → key' ≠ key - py_len l →
        py_getitem l' key' = py_getitem l key'.
Proof.
  intros Hi. destruct (norm_index_in_range l key Hi) as (k & Hk & Hlt & Hkz).
  exists (<[k := x]> l). unfold py_setitem. rewrite Hk.
  assert (Hlen : py_len (<[k := x]> l) = py_len l)
    by (unfold py_len; by rewrite length_insert).
  split; [done|]. split; [|split; [done|]].
  - unfold py_getitem. rewrite (norm_index_len l _ key Hlen), Hk.
    by rewrite list_lookup_insert_eq.
  - intros key' Hi' H1 H2 H3.
    destruct (norm_index_in_range l key' Hi') as (k' & Hk' & Hlt' & Hkz').
    unfold py_getitem. rewrite (norm_index_len l _ key' Hlen), Hk'.
    rewrite list_lookup_insert_ne; [done|].
    intros <-. destruct (key <? 0) eqn:?, (key' <? 0) eqn:?; zbool; lia.
Qed.

(** X4. For a key in [-n, n), [shape[key] = v] succeeds, [shape[key]] then
    reads [v], the length is unchanged and every subscript that addresses
    another position reads what it read before; for a key outside [-n, n)
    both [shape[key] = v] and [shape[key]] raise [IndexError]. *)
Theorem setitem_then_getitem (sh : Shape) (key : Z) (v : value) :
  let n := shape_len sh in
  (- n <= key < n →
     ∃ sh',
       shape_setitem sh key v = Ok sh'
       ∧ shape_getitem sh' key = Ok v
       ∧ shape_len sh' = n
       ∧ segments sh' = segments sh
       ∧ ∀ key', - n <= key' < n →
           key' ≠ key → key' ≠ key + n → key' ≠ key - n →
           shape_getitem sh' key' = shape_getitem sh key')
  ∧ (¬ (- n <= key < n) →
       shape_setitem sh key v = Raise IndexError
       ∧ shape_getitem sh key = Raise IndexError).
Proof.
  cbv zeta. unfold shape_len, shape_setitem, shape_getitem. split.
  - intros Hi.
    destruct (py_setitem_spec (points sh) key v Hi) as (l' & -> & Hg & Hl & Ho).
    simpl. eexists. split; [reflexivity|]. simpl. done.
  - intros Hi. split.
    + apply (py_setitem_IndexError (points sh) key v) in Hi. by rewrite Hi.
    + by apply py_getitem_IndexError.
Qed.

(** ** Moving points *)

Lemma add_offset_points (pts : list QPointF) (offset : QPointF) :
  add_offset (map VPoint pts) offset
  = Ok (map (λ p, VPoint (point_add p offset)) pts).
Proof.
  induction pts as [|p pts IH]; [reflexivity|].
  simpl. rewrite IH. reflexivity.
Qed.

Lemma add_offset_raise (ps : list value) (offset : QPointF) (e : exn) :
  add_offset ps offset = Raise e → e = TypeError ∧ ∃ n, VInt n ∈ ps.
Proof.
  induction ps as [|p ps IH]; [discriminate|].
  simpl. destruct p as [q|n]; simpl.
  - destruct (add_offset ps offset) as [qs|e'] eqn:Hq; simpl; [discriminate|].
    intros [= <-]. destruct (IH eq_refl) as [-> [n Hn]].
    split; [done|]. exists n. by right.
  - intros [= <-]. split; [done|]. exists n. by left.
Qed.

Lemma all_points (ps : list value) :
  (∀ n, VInt n ∉ ps) → ∃ pts, ps = map VPoint pts.
Proof.
  induction ps as [|p ps IH]; intros H.
  - by exists [].
  - destruct IH as [pts ->]. { intros n Hn. apply (H n). by right. }
    destruct p as [q|n].
    + by exists (q :: pts).
    + exfalso. apply (H n). by left.
Qed.

Lemma moveBy_points (sh : Shape) (offset : QPointF) (pts : list QPointF) :
  points sh = map VPoint pts →
  moveBy sh offset
  = Ok (set_points sh (map (λ p, VPoint (point_add p offset)) pts)).
Proof. unfold moveBy. intros ->. by rewrite add_offset_points. Qed.

(** X5. [moveBy(offset)] raises, with [TypeError], exactly when some stored
    element is not a point; otherwise it moves every point by the offset,
    keeps their number and order, and leaves segments, counter and closed
    flag alone. *)
Theorem moveBy_moves_every_point (sh : Shape) (offset : QPointF) :
  (raises (moveBy sh offset) ↔ ∃ n, VInt n ∈ points sh)
  ∧ (∀ e, moveBy sh offset = Raise e → e = TypeError)
  ∧ (∀ pts, points sh = map VPoint pts →
       moveBy sh offset
       = Ok (set_points sh (map (λ p, VPoint (point_add p offset)) pts))).
Proof.
  unfold moveBy. split; [split|split].
  - intros [e He].
    destruct (add_offset (points sh) offset) as [ps|e'] eqn:Ha; [done|].
    by apply add_offset_raise in Ha as [_ ?].
  - intros [n Hn].
    destruct (add_offset (points sh) offset) as [ps|e'] eqn:Ha;
      [|by exists e'].
    exfalso. clear -Ha Hn. revert ps Ha.
    induction (points sh) as [|p l IH]; intros ps Ha.
    + by apply elem_of_nil in Hn.
    + simpl in Ha. apply elem_of_cons in Hn as [<-|Hn]; [done|].
      destruct p as [q|m]; [|done]. simpl in Ha.
      destruct (add_offset l offset) as [qs|] eqn:Hq; [|done].
      by eapply IH.
  - intros e.
    destruct (add_offset (points sh) offset) as [ps|e'] eqn:Ha; [done|].
    intros [= <-]. by apply add_offset_raise in Ha as [? _].
  - intros pts Hp. rewrite <- (moveBy_points sh offset pts Hp). reflexivity.
Qed.




(** X7. [moveVertexBy(i, offset)] on a stored point moves that point and
    nothing else: the subscript [i] then reads the moved point, the length
    is unchanged, every subscript addressing another position reads what
    it read before, and segments, counter and closed flag are untouched.
    On a stored element that is not a point it raises [TypeError]. *)
Theorem moveVertexBy_moves_one (sh : Shape) (i : Z) (offset : QPointF) :
  let n := shape_len sh in
  (∀ p, shape_getitem sh i = Ok (VPoint p) →
     ∃ sh',
       moveVertexBy sh i offset = Ok sh'
       ∧ shape_getitem sh' i = Ok (VPoint (point_add p offset))
       ∧ shape_len sh' = n
       ∧ segments sh' = segments sh
       ∧ points_in_segments sh' = points_in_segments sh
       ∧ closed sh' = closed sh
       ∧ ∀ j, - n <= j < n → j ≠ i → j ≠ i + n → j ≠ i - n →
           shape_getitem sh' j = shape_getitem sh j)
  ∧ (∀ m, shape_getitem sh i = Ok (VInt m) →
       moveVertexBy sh i offset = Raise TypeError).
Proof.
  cbv zeta. unfold shape_len, shape_getitem, moveVertexBy. split.
  - intros p Hg. rewrite Hg. simpl.
    assert (Hi : - py_len (points sh) <= i < py_len (points sh)).
    { apply dec_stable. intros Hn.
      apply py_getitem_IndexError in Hn. congruence. }
    destruct (py_setitem_spec (points sh) i (VPoint (point_add p offset)) Hi)
      as (l' & -> & Hg' & Hl & Ho).
    simpl. eexists. split; [reflexivity|]. simpl. done.
  - intros m Hg. by rewrite Hg.
Qed.

(** ** Segments and the counter *)

Lemma Zsum_sizes_insert (segs : list Segment) (j : nat) (b len : Z) :
  segs !! j = Some (b, len) →
  Zsum (map (λ x, x.2 - 1) (<[j := (b, len + 1)]> segs))
  = Zsum (map (λ x, x.2 - 1) segs) + 1.
Proof.
  revert j. induction segs as [|x segs IH]; intros j Hj; [done|].
  destruct j as [|j].
  - change (Some x = Some (b, len)) in Hj. injection Hj as ->.
    change (len + 1 - 1 + Zsum (map (λ x, x.2 - 1) segs)
            = len - 1 + Zsum (map (λ x, x.2 - 1) segs) + 1).
    ring.
  - change (segs !! j = Some (b, len)) in Hj.
    change (x.2 - 1 + Zsum (map (λ x, x.2 - 1) (<[j := (b, len + 1)]> segs))
            = x.2 - 1 + Zsum (map (λ x, x.2 - 1) segs) + 1).
    rewrite (IH j Hj). ring.
Qed.

Lemma segments_total_insert (segs : list Segment) (j : nat) (b len : Z) :
  segs !! j = Some (b, len) →
  segments_total (<[j := (b, len + 1)]> segs) = segments_total segs + 1.
Proof.
  intros Hj. destruct segs as [|s rest]; [done|].
  destruct j as [|j].
  - change (Some s = Some (b, len)) in Hj. injection Hj as ->.
    change (len + 1 + Zsum (map (λ x, x.2 - 1) rest)
            = len + Zsum (map (λ x, x.2 - 1) rest) + 1).
    ring.
  - change (rest !! j = Some (b, len)) in Hj.
    change (s.2 + Zsum (map (λ x, x.2 - 1) (<[j := (b, len + 1)]> rest))
            = s.2 + Zsum (map (λ x, x.2 - 1) rest) + 1).
    rewrite (Zsum_sizes_insert rest j b len Hj). ring.
Qed.

(** X8. [addPointToSegment(point, seg_id)] raises [IndexError] exactly
    when [seg_id] is outside [-k, k) for k recorded segments.  Otherwise it
    lengthens that one segment by one and touches nothing else: the point
    passed is not stored, and [points_in_segments] stays as it was, so the
    sizes of the segments now add up to one more than before while the
    counter does not. *)
Theorem addPointToSegment_counter (sh : Shape) (pt : value) (seg_id : Z) :
  let k := py_len (segments sh) in
  (addPointToSegment sh pt seg_id = Raise IndexError ↔ ¬ (- k <= seg_id < k))
  ∧ (- k <= seg_id < k →
     ∃ sh',
       addPointToSegment sh pt seg_id = Ok sh'
       ∧ points sh' = points sh
       ∧ points_in_segments sh' = points_in_segments sh
       ∧ py_len (segments sh') = k
       ∧ segments_total (segments sh') = segments_total (segments sh) + 1).
Proof.
  cbv zeta. unfold addPointToSegment, py_getitem, py_setitem. split.
  - destruct (norm_index (segments sh) seg_id) as [j|] eqn:Hj.
    + destruct (norm_index_Some _ _ _ Hj) as (Hlt & _ & Hr).
      destruct (lookup_lt_is_Some_2 (segments sh) j Hlt) as [s ->]. simpl.
      split; [discriminate | tauto].
    + apply norm_index_None in Hj. simpl. tauto.
  - intros Hr.
    destruct (norm_index_in_range (segments sh) seg_id Hr) as (j & -> & Hlt & _).
    destruct (lookup_lt_is_Some_2 (segments sh) j Hlt) as [[b len] Hs].
    rewrite Hs. simpl. eexists. split; [reflexivity|]. simpl.
    split; [done|]. split; [done|]. split.
    + unfold py_len. by rewrite length_insert.
    + by apply segments_total_insert.
Qed.

(** ** [addPoint] on shapes that are not curves *)

(** X9. On a shape whose type is not curve, [addPoint] ignores
    [is_release] and [new_p] and never raises: it appends the point, or,
    when the point equals the first stored point, closes the shape and
    stores nothing; the segments and the counter are never touched. *)
Theorem addPoint_not_curve (sh : Shape) (pt : value) (is_release : bool)
    (new_p : value) :
  shape_type sh ≠ curve →
  addPoint sh pt is_release new_p = addPoint sh pt false new_p_default
  ∧ ∃ sh',
      addPoint sh pt is_release new_p = Ok sh'
      ∧ segments sh' = segments sh
      ∧ points_in_segments sh' = points_in_segments sh
      ∧ ((points sh' = points sh ∧ closed sh' = true
          ∧ ∃ first, head (points sh) = Some first ∧ value_eqb pt first = true)
         ∨ (points sh' = points sh ++ [pt] ∧ closed sh' = closed sh)).
Proof.
  intros Ht. unfold addPoint.
  assert (Hc : ShapeType_eqb (shape_type sh) curve = false)
    by (by destruct (shape_type sh)).
  rewrite Hc, andb_false_r. simpl. split; [reflexivity|].
  destruct (points sh) as [|first rest] eqn:Hp.
  - eexists. split; [reflexivity|]. simpl. split; [done|].
    split; [done|]. by right.
  - destruct (value_eqb pt first) eqn:He.
    + eexists. split; [reflexivity|]. simpl. split; [done|]. split; [done|].
      left. split; [done|]. split; [done|]. by exists first.
    + eexists. split; [reflexivity|]. simpl.
      split; [done|]. split; [done|]. by right.
Qed.

Lemma addPoint_not_curve_witness :
  shape_type (mkShape polygon [VPoint (P 0 0); VPoint (P 4 0)] [] 0 false)
    ≠ curve
  ∧ addPoint (mkShape polygon [VPoint (P 0 0); VPoint (P 4 0)] [] 0 false)
      (VPoint (P 0 0)) true (VPoint (P 9 9))
    = addPoint (mkShape polygon [VPoint (P 0 0); VPoint (P 4 0)] [] 0 false)
        (VPoint (P 0 0)) false new_p_default.
Proof.
  assert (H : shape_type
                (mkShape polygon [VPoint (P 0 0); VPoint (P 4 0)] [] 0 false)
              ≠ curve) by (simpl; discriminate).
  split; [exact H|].
  destruct (addPoint_not_curve
              (mkShape polygon [VPoint (P 0 0); VPoint (P 4 0)] [] 0 false)
              (VPoint (P 0 0)) true (VPoint (P 9 9)) H) as [He _].
  exact He.
Defined.

(** ** What the hit-test path covers *)

Lemma isect_line_opposite (p q pos : QPointF) :
  isect_line p q pos + isect_line q p pos = 0.
Proof.
  unfold isect_line.
  destruct (Qeq_bool (py p) (py q)) eqn:E1, (Qeq_bool (py q) (py p)) eqn:E2;
    qbool; try reflexivity.
  - exfalso. apply E2. by symmetry.
  - exfalso. apply E1. by symmetry.
  - destruct (Qlt_bool (py q) (py p)) eqn:D1, (Qlt_bool (py p) (py q)) eqn:D2;
      qbool.
    + exfalso. lra.
    + destruct (Qle_bool (py q) (py pos) && Qlt_bool (py pos) (py p));
        [|reflexivity].
      by destruct (Qle_bool _ (px pos)).
    + destruct (Qle_bool (py p) (py pos) && Qlt_bool (py pos) (py q));
        [|reflexivity].
      by destruct (Qle_bool _ (px pos)).
    + exfalso. apply E1. apply Qle_antisym; lra.
Qed.

Lemma path_elements_lines (ps : list QPointF) :
  path_elements (map LineTo ps) = map LineTo ps.
Proof. induction ps as [|p ps IH]; [done|]. simpl. by rewrite IH. Qed.

Section hit_test.
Variable sqrt : Q → Q.
Variable curve_winding : PathOp → QPointF → QPointF → Z.
Variable path_boundingRect : QPainterPath → QRectF.

Lemma winding_closing_line (qs : list QPointF) (start cur pos : QPointF) :
  winding curve_winding (map LineTo (qs ++ [start])) start cur pos
  = winding curve_winding (map LineTo qs) start cur pos.
Proof.
  revert cur. induction qs as [|q qs IH]; intros cur.
  - cbn [app map winding].
    rewrite (isect_line_level start start) by reflexivity. ring.
  - cbn [app map winding]. by rewrite IH.
Qed.

Lemma polyline_contains (p0 : QPointF) (ps : list QPointF) (pos : QPointF) :
  path_contains curve_winding (MoveTo p0 :: map LineTo ps) pos
  = Z.odd (winding curve_winding (map LineTo ps) p0 p0 pos).
Proof.
  unfold path_contains. cbn [path_elements]. rewrite path_elements_lines.
  cbn [winding]. by rewrite isect_line_level by reflexivity.
Qed.

(** X10. A shape drawn as a polyline (every type but rectangle and circle)
    that has one or two points contains no point at all: a single point
    and a single line have no inside. *)
Theorem few_points_contain_nothing (sh : Shape) (pts : list QPointF)
    (pos : QPointF) :
  shape_type sh ≠ rectangle → shape_type sh ≠ circle →
  points sh = map VPoint pts →
  (1 <= length pts <= 2)%nat →
  containsPoint sqrt curve_winding sh pos = Ok false.
Proof.
  intros Hr Hc Hp Hn. unfold containsPoint.
  destruct pts as [|p0 [|p1 [|p2 pts]]]; simpl in Hn; try lia.
  - rewrite (makePath_polyline sqrt sh p0 [] Hr Hc Hp).
    cbn [mbind result_bind]. rewrite polyline_contains. cbn [map winding].
    by rewrite isect_line_level by reflexivity.
  - rewrite (makePath_polyline sqrt sh p0 [p1] Hr Hc Hp).
    cbn [mbind result_bind]. rewrite polyline_contains. cbn [map winding].
    by rewrite isect_line_opposite.
Qed.


Lemma draw_vertices_points (pts : list QPointF) :
  draw_vertices (map VPoint pts) = Ok ().
Proof. induction pts as [|p pts IH]; [done|]. simpl. by rewrite IH. Qed.

Lemma paint_polyline (sh : Shape) (p0 : QPointF) (ps : list QPointF) :
  shape_type sh ≠ rectangle → shape_type sh ≠ circle →
  shape_type sh ≠ curve →
  points sh = map VPoint (p0 :: ps) →
  paint_line_path sqrt sh
  = Ok (MoveTo p0 :: map LineTo (p0 :: ps)
          ++ (if ShapeType_eqb (shape_type sh) linestrip then []
              else if isClosed sh then [LineTo p0] else [])).
Proof.
  intros Hr Hc Hcu Hp. unfold paint_line_path. rewrite Hp.
  change (map VPoint (p0 :: ps)) with (VPoint p0 :: map VPoint ps).
  cbv iota.
  change (VPoint p0 :: map VPoint ps) with (map VPoint (p0 :: ps)).
  rewrite line_to_all_points.
  destruct (shape_type sh); try done; cbn [ShapeType_eqb as_point mbind result_bind];
    try reflexivity.
  by rewrite app_nil_r.
Qed.

(** X11. For every shape type but curve, what [paint] outlines and fills
    and what [makePath] hands to [containsPoint] cover the same area: for
    a rectangle or a circle (one or two points) the two paths are the same
    path; for the polyline types [paint] starts with a line from the first
    point to itself and, when the shape is closed, ends with a line back
    to the first point, neither of which changes the odd-even count. *)
Theorem paint_and_makePath_agree (sh : Shape) (p0 : QPointF)
    (ps : list QPointF) (pos : QPointF) :
  shape_type sh ≠ curve →
  points sh = map VPoint (p0 :: ps) →
  (shape_type sh = rectangle ∨ shape_type sh = circle → (length ps <= 1)%nat) →
  ∃ painted hit,
    paint_line_path sqrt sh = Ok painted
    ∧ makePath sqrt sh = Ok hit
    ∧ path_contains curve_winding painted pos
      = path_contains curve_winding hit pos
    ∧ (shape_type sh = rectangle ∨ shape_type sh = circle → painted = hit).
Proof.
  intros Hcu Hp Hbox.
  assert (Hcase : (shape_type sh = rectangle ∨ shape_type sh = circle)
                  ∨ ¬ (shape_type sh = rectangle ∨ shape_type sh = circle)).
  { destruct (shape_type sh); try (left; tauto);
      right; intros [H|H]; discriminate H. }
  destruct Hcase as [Ht|Ht].
  - specialize (Hbox Ht). unfold paint_line_path, makePath. rewrite Hp.
    destruct ps as [|p1 [|p2 ps]]; simpl in Hbox; try lia;
      destruct Ht as [-> | ->]; cbn [ShapeType_eqb];
      eexists _, _; (split; [reflexivity|]); (split; [reflexivity|]); done.
  - assert (Hr : shape_type sh ≠ rectangle) by tauto.
    assert (Hc : shape_type sh ≠ circle) by tauto.
    rewrite (paint_polyline sh p0 ps Hr Hc Hcu Hp).
    rewrite (makePath_polyline sqrt sh p0 ps Hr Hc Hp).
    eexists _, _. split; [reflexivity|]. split; [reflexivity|].
    split; [|tauto].
    assert (Htail : ∀ tail,
      path_contains curve_winding
        (MoveTo p0 :: map LineTo (p0 :: ps) ++ map LineTo tail) pos
      = Z.odd (winding curve_winding (map LineTo (ps ++ tail)) p0 p0 pos)).
    { intros tail. rewrite <- List.map_app. rewrite polyline_contains.
      cbn [app map winding]. by rewrite isect_line_level by reflexivity. }
    rewrite polyline_contains.
    destruct (ShapeType_eqb (shape_type sh) linestrip);
      [|unfold isClosed; destruct (closed sh)].
    + change (@nil PathOp) with (map LineTo []).
      rewrite (Htail []). by rewrite app_nil_r.
    + change [LineTo p0] with (map LineTo [p0]).
      rewrite (Htail [p0]). by rewrite winding_closing_line.
    + change (@nil PathOp) with (map LineTo []).
      rewrite (Htail []). by rewrite app_nil_r.
Qed.

(** X12. A rectangle or a circle whose number of points is not two has an
    empty hit-test path: [containsPoint] answers [False] for every point
    and [boundingRect] is that of the empty path, without any error, also
    with three points or more, where [paint] fails its assertion. *)
Theorem box_without_two_points (sh : Shape) (pos : QPointF) :
  shape_type sh = rectangle ∨ shape_type sh = circle →
  length (points sh) ≠ 2%nat →
  makePath sqrt sh = Ok []
  ∧ containsPoint sqrt curve_winding sh pos = Ok false
  ∧ boundingRect sqrt path_boundingRect sh = Ok (path_boundingRect [])
  ∧ ((3 <= length (points sh))%nat →
       paint_line_path sqrt sh = Raise AssertionError).
Proof.
  intros Ht Hn.
  assert (Hm : makePath sqrt sh = Ok []).
  { unfold makePath. destruct Ht as [-> | ->]; cbn [ShapeType_eqb];
      by destruct (points sh) as [|a [|b [|c l]]]. }
  split; [done|]. unfold containsPoint, boundingRect. rewrite Hm.
  split; [done|]. split; [done|]. intros H3.
  unfold paint_line_path.
  destruct (points sh) as [|a [|b [|c l]]] eqn:Hp; simpl in H3; try lia.
  assert (Hlen : (py_len (a :: b :: c :: l) =? 1) = false)
    by (apply Z.eqb_neq; unfold py_len; cbn [length]; lia).
  assert (Hlen2 : (py_len (a :: b :: c :: l) =? 2) = false)
    by (apply Z.eqb_neq; unfold py_len; cbn [length]; lia).
  destruct Ht as [-> | ->]; cbn [ShapeType_eqb]; by rewrite Hlen, Hlen2.
Qed.

End hit_test.

Lemma few_points_contain_nothing_witness :
  shape_type (mkShape line [VPoint (P 0 0); VPoint (P 4 4)] [] 0 false)
    ≠ rectangle
  ∧ shape_type (mkShape line [VPoint (P 0 0); VPoint (P 4 4)] [] 0 false)
    ≠ circle
  ∧ points (mkShape line [VPoint (P 0 0); VPoint (P 4 4)] [] 0 false)
    = map VPoint [P 0 0; P 4 4]
  ∧ (1 <= length [P 0 0; P 4 4] <= 2)%nat
  ∧ containsPoint (λ x, x) (λ _ _ _, 0)
      (mkShape line [VPoint (P 0 0); VPoint (P 4 4)] [] 0 false) (P 2 2)
    = Ok false.
Proof.
  assert (H1 : shape_type
                 (mkShape line [VPoint (P 0 0); VPoint (P 4 4)] [] 0 false)
               ≠ rectangle) by (simpl; discriminate).
  assert (H2 : shape_type
                 (mkShape line [VPoint (P 0 0); VPoint (P 4 4)] [] 0 false)
               ≠ circle) by (simpl; discriminate).
  assert (H3 : (1 <= length [P 0 0; P 4 4] <= 2)%nat) by (simpl; lia).
  split; [exact H1|]. split; [exact H2|]. split; [reflexivity|].
  split; [exact H3|].
  exact (few_points_contain_nothing (λ x, x) (λ _ _ _, 0)
           (mkShape line [VPoint (P 0 0); VPoint (P 4 4)] [] 0 false)
           [P 0 0; P 4 4] (P 2 2) H1 H2 eq_refl H3).
Defined.

Lemma paint_and_makePath_agree_witness :
  shape_type (mkShape polygon
                [VPoint (P 0 0); VPoint (P 4 0); VPoint (P 0 4)] [] 0 true)
    ≠ curve
  ∧ points (mkShape polygon
              [VPoint (P 0 0); VPoint (P 4 0); VPoint (P 0 4)] [] 0 true)
    = map VPoint [P 0 0; P 4 0; P 0 4]
  ∧ (shape_type (mkShape polygon
                   [VPoint (P 0 0); VPoint (P 4 0); VPoint (P 0 4)] [] 0 true)
       = rectangle
     ∨ shape_type (mkShape polygon
                     [VPoint (P 0 0); VPoint (P 4 0); VPoint (P 0 4)] [] 0 true)
       = circle
     → (length [P 4 0; P 0 4] <= 1)%nat)
  ∧ ∃ painted hit,
      paint_line_path (λ x, x)
        (mkShape polygon
           [VPoint (P 0 0); VPoint (P 4 0); VPoint (P 0 4)] [] 0 true)
        = Ok painted
      ∧ makePath (λ x, x)
          (mkShape polygon
             [VPoint (P 0 0); VPoint (P 4 0); VPoint (P 0 4)] [] 0 true)
        = Ok hit
      ∧ path_contains (λ _ _ _, 0) painted (P 1 1)
        = path_contains (λ _ _ _, 0) hit (P 1 1).
Proof.
  assert (H1 : shape_type
                 (mkShape polygon
                    [VPoint (P 0 0); VPoint (P 4 0); VPoint (P 0 4)] [] 0 true)
               ≠ curve) by (simpl; discriminate).
  assert (H3 : shape_type
                 (mkShape polygon
                    [VPoint (P 0 0); VPoint (P 4 0); VPoint (P 0 4)] [] 0 true)
               = rectangle
               ∨ shape_type
                   (mkShape polygon
                      [VPoint (P 0 0); VPoint (P 4 0); VPoint (P 0 4)] [] 0 true)
                 = circle
               → (length [P 4 0; P 0 4] <= 1)%nat)
    by (simpl; intros [H|H]; discriminate H).
  split; [exact H1|]. split; [reflexivity|]. split; [exact H3|].
  destruct (paint_and_makePath_agree (λ x, x) (λ _ _ _, 0)
              (mkShape polygon
                 [VPoint (P 0 0); VPoint (P 4 0); VPoint (P 0 4)] [] 0 true)
              (P 0 0) [P 4 0; P 0 4] (P 1 1) H1 eq_refl H3)
    as (painted & hit & Hpa & Hhit & Heq & _).
  exists painted, hit. done.
Defined.

Lemma box_without_two_points_witness :
  (shape_type (mkShape rectangle
                 [VPoint (P 0 0); VPoint (P 4 0); VPoint (P 4 4)] [] 0 false)
     = rectangle
   ∨ shape_type (mkShape rectangle
                   [VPoint (P 0 0); VPoint (P 4 0); VPoint (P 4 4)] [] 0 false)
     = circle)
  ∧ length (points (mkShape rectangle
                      [VPoint (P 0 0); VPoint (P 4 0); VPoint (P 4 4)]
                      [] 0 false)) ≠ 2%nat
  ∧ containsPoint (λ x, x) (λ _ _ _, 0)
      (mkShape rectangle
         [VPoint (P 0 0); VPoint (P 4 0); VPoint (P 4 4)] [] 0 false) (P 1 1)
    = Ok false.
Proof.
  assert (H2 : length (points (mkShape rectangle
                      [VPoint (P 0 0); VPoint (P 4 0); VPoint (P 4 4)]
                      [] 0 false)) ≠ 2%nat) by (simpl; lia).
  split; [by left|]. split; [exact H2|].
  destruct (box_without_two_points (λ x, x) (λ _ _ _, 0)
              (λ _, mkRect 0 0 0 0)
              (mkShape rectangle
                 [VPoint (P 0 0); VPoint (P 4 0); VPoint (P 4 4)] [] 0 false)
              (P 1 1) (or_introl eq_refl) H2) as (_ & Hc & _).
  exact Hc.
Defined.

(** ** Closing a curve *)

Lemma py_getitem_in_range {A : Type} (l : list A) (i : Z) :
  - py_len l <= i < py_len l → ∃ x, py_getitem l i = Ok x.
Proof.
  intros Hi. destruct (norm_index_in_range l i Hi) as (k & Hk & Hlt & _).
  unfold py_getitem. rewrite Hk.
  destruct (lookup_lt_is_Some_2 l k Hlt) as [x ->]. by exists x.
Qed.

Lemma py_getitem_points (pts : list QPointF) (i : Z) (v : value) :
  py_getitem (map VPoint pts) i = Ok v → ∃ q, v = VPoint q.
Proof.
  intros H. apply py_getitem_elem in H.
  apply list_elem_of_In, in_map_iff in H as (q & <- & _). by exists q.
Qed.

(** X13. A click on the first point of a curve (an [addPoint] without
    release whose point equals [points[0]]) closes the shape and stores no
    point.  When exactly one point is not yet counted in a segment
    ([points_in_segments] = N - 1) it first records the segment
    (N - 2, 3), which reaches one past the end of the list: [drawSegment]
    draws it as a quadratic through the last point that ends at the first
    point.  Otherwise it records nothing. *)
Theorem closing_click (sh : Shape) (p0 : QPointF) (ps : list QPointF)
    (pt new_p : value) :
  shape_type sh = curve →
  points sh = map VPoint (p0 :: ps) →
  value_eqb pt (VPoint p0) = true →
  let N := py_len (points sh) in
  ∃ sh',
    addPoint sh pt false new_p = Ok sh'
    ∧ closed sh' = true
    ∧ points sh' = points sh
    ∧ (points_in_segments sh = N - 1 →
         segments sh' = segments sh ++ [(N - 2, 3)]
         ∧ ∃ q, py_getitem (points sh) (N - 1) = Ok (VPoint q)
                ∧ drawSegment sh' (N - 2, 3) = Ok (QuadTo q p0))
    ∧ (points_in_segments sh ≠ N - 1 →
         segments sh' = segments sh
         ∧ points_in_segments sh' = points_in_segments sh).
Proof.
  intros Ht Hp He N.
  assert (HN : 1 <= N) by (unfold N, py_len; rewrite Hp; simpl; lia).
  unfold addPoint. rewrite Ht. cbn [andb].
  rewrite Hp. change (map VPoint (p0 :: ps)) with (VPoint p0 :: map VPoint ps).
  cbv iota. rewrite He.
  change (VPoint p0 :: map VPoint ps) with (map VPoint (p0 :: ps)).
  rewrite <- Hp. fold N. cbn [ShapeType_eqb andb].
  destruct (Z.max (N - points_in_segments sh) 0 =? 1) eqn:Hd; zbool.
  - eexists. split; [reflexivity|]. cbn [closed close points addSegment].
    split; [done|]. split; [done|]. split; [|intros Hne; exfalso; lia].
    intros Hpis. split.
    + unfold QUADRATIC_BEZIER_ORDER. rewrite Hd.
      change (segments sh ++ [(N - (2 + 1) + 1, 2 + 1)]
              = segments sh ++ [(N - 2, 3)]).
      do 3 f_equal. lia.
    + destruct (py_getitem_in_range (points sh) (N - 1)) as [v Hv]; [lia|].
      pose proof Hv as Hq. rewrite Hp in Hq.
      apply py_getitem_points in Hq as [q ->].
      exists q. split; [done|].
      unfold drawSegment. cbn [fst snd points close addSegment].
      change (3 =? 4) with false. change (3 =? 3) with true. cbv iota.
      fold N. replace (N >=? N - 2 + 3) with false by lia.
      replace (N - 2 + 1) with (N - 1) by lia. rewrite Hv.
      cbn [mbind result_bind]. rewrite Hp.
      change (map VPoint (p0 :: ps)) with (VPoint p0 :: map VPoint ps).
      by rewrite py_getitem_first.
  - eexists. split; [reflexivity|]. cbn [closed close points].
    split; [done|]. split; [done|]. split; [intros Hpis; exfalso; lia|]. done.
Qed.

Lemma closing_click_witness :
  shape_type (mkShape curve
                [VPoint (P 0 0); VPoint (P 2 1); VPoint (P 4 0); VPoint (P 4 4)]
                [(0, 3)] 3 false) = curve
  ∧ points (mkShape curve
              [VPoint (P 0 0); VPoint (P 2 1); VPoint (P 4 0); VPoint (P 4 4)]
              [(0, 3)] 3 false)
    = map VPoint [P 0 0; P 2 1; P 4 0; P 4 4]
  ∧ value_eqb (VPoint (P 0 0)) (VPoint (P 0 0)) = true
  ∧ ∃ sh',
      addPoint (mkShape curve
                  [VPoint (P 0 0); VPoint (P 2 1); VPoint (P 4 0); VPoint (P 4 4)]
                  [(0, 3)] 3 false) (VPoint (P 0 0)) false new_p_default
        = Ok sh'
      ∧ closed sh' = true.
Proof.
  split; [reflexivity|]. split; [reflexivity|]. split; [reflexivity|].
  destruct (closing_click
              (mkShape curve
                 [VPoint (P 0 0); VPoint (P 2 1); VPoint (P 4 0); VPoint (P 4 4)]
                 [(0, 3)] 3 false)
              (P 0 0) [P 2 1; P 4 0; P 4 4] (VPoint (P 0 0)) new_p_default
              eq_refl eq_refl eq_refl) as (sh' & Ha & Hc & _).
  by exists sh'.
Defined.

(** X14. On a curve with two points or more, the release of a point that
    differs from the last stored point inserts the anchor before the last
    point and records one segment of size 3 + degree_increment.  If the
    released point equals the first point the shape is closed and the
    released point is not kept, so the segment ends on the last stored
    point; otherwise the released point is kept as the new last point and
    the shape stays as open or closed as it was. *)
Theorem release_on_new_point (sh : Shape) (first lst pt new_p : value)
    (pre : list value) :
  shape_type sh = curve →
  points sh = first :: pre ++ [lst] →
  value_eqb pt lst = false →
  let N := py_len (points sh) in
  let size := 3 + Z.max (N - points_in_segments sh - 1) 0 in
  let pts := first :: pre ++ [new_p; lst] in
  (value_eqb pt first = true →
     addPoint sh pt true new_p
     = Ok (close (addSegment (set_points sh pts) (N + 1 - size) size))
     ∧ (N + 1 - size) + size = py_len pts)
  ∧ (value_eqb pt first = false →
     addPoint sh pt true new_p
     = Ok (addSegment (set_points sh (pts ++ [pt])) (N + 1 - size) size)).
Proof.
  intros Ht Hp He N size pts.
  assert (HN : N = py_len pre + 2).
  { unfold N. rewrite Hp. unfold py_len. cbn [length].
    rewrite length_app. cbn [length]. lia. }
  assert (HN2 : 2 <= N) by (rewrite HN; unfold py_len; lia).
  assert (Hlast : py_getitem (points sh) (-1) = Ok lst).
  { rewrite Hp. change (first :: pre ++ [lst]) with ((first :: pre) ++ [lst]).
    apply py_getitem_last. }
  assert (Hins : py_insert (points sh) (Z.max (N - 1) 1) new_p = pts).
  { unfold N. rewrite Hp.
    change (first :: pre ++ [lst]) with ((first :: pre) ++ [lst]).
    rewrite py_insert_before_last.
    change ((first :: pre) ++ [lst]) with (first :: pre ++ [lst]).
    rewrite <- Hp. fold N. by replace (N =? 1) with false by lia. }
  assert (Hlen : py_len pts = N + 1).
  { rewrite <- Hins. apply py_insert_length. }
  assert (Hcreate : createSegment sh pt
            (Z.max (N - points_in_segments sh - 1) 0) new_p
          = Ok (addSegment (set_points sh (pts ++ [pt])) (N + 1 - size) size)).
  { unfold createSegment. rewrite Hlast. cbn [mbind result_bind].
    rewrite He. unfold insertPoint. cbn [points set_points].
    fold N. rewrite Hins, Hlen. reflexivity. }
  assert (Hadd : addPoint sh pt true new_p
          = catch_NoPointError (
              sh1 ← Ok (addSegment (set_points sh (pts ++ [pt]))
                          (N + 1 - size) size);
              fst0 ← py_getitem (points sh1) 0;
              if value_eqb pt fst0 then
                r ← py_pop (points sh1) (-1);
                Ok (close (set_points sh1 r.2))
              else Ok sh1)).
  { unfold addPoint. rewrite Ht. cbn [andb ShapeType_eqb].
    rewrite Hlast. cbn [mbind result_bind]. rewrite He. cbn [andb].
    fold N. replace (N =? 1) with false by lia. rewrite andb_false_r.
    by rewrite Hcreate. }
  rewrite Hadd. cbn [mbind result_bind points addSegment set_points].
  assert (Hfirst : py_getitem (pts ++ [pt]) 0 = Ok first)
    by apply py_getitem_first.
  rewrite Hfirst. cbn [mbind result_bind].
  split; intros Hf; rewrite Hf.
  - split; [|lia]. rewrite py_pop_last. reflexivity.
  - reflexivity.
Qed.

Lemma release_on_new_point_witness :
  shape_type (mkShape curve [VPoint (P 0 0); VPoint (P 4 0)] [] 2 false) = curve
  ∧ points (mkShape curve [VPoint (P 0 0); VPoint (P 4 0)] [] 2 false)
    = VPoint (P 0 0) :: [] ++ [VPoint (P 4 0)]
  ∧ value_eqb (VPoint (P 0 0)) (VPoint (P 4 0)) = false
  ∧ addPoint (mkShape curve [VPoint (P 0 0); VPoint (P 4 0)] [] 2 false)
      (VPoint (P 0 0)) true (VPoint (P 2 1))
    = Ok (mkShape curve [VPoint (P 0 0); VPoint (P 2 1); VPoint (P 4 0)]
            [(0, 3)] 3 true).
Proof.
  split; [reflexivity|]. split; [reflexivity|]. split; [reflexivity|].
  destruct (release_on_new_point
              (mkShape curve [VPoint (P 0 0); VPoint (P 4 0)] [] 2 false)
              (VPoint (P 0 0)) (VPoint (P 4 0)) (VPoint (P 0 0))
              (VPoint (P 2 1)) [] eq_refl eq_refl eq_refl) as [H _].
  destruct (H eq_refl) as [Ha _]. exact Ha.
Defined.



(** ** [nearestEdge] *)

Lemma scan_inv_step (e : nat → option Q) (epsilon : Q) (k : nat)
    (st : option Q * option Z) (d : Q) :
  scan_inv e epsilon k st → e k = Some d →
  scan_inv e epsilon (S k) (keep_nearest epsilon d (Z.of_nat k) st).
Proof.
  intros Hinv Hk. unfold keep_nearest.
  assert (Hsplit : ∀ j, (j < S k)%nat → (j < k)%nat ∨ j = k) by lia.
  destruct (Qle_bool d epsilon) eqn:Hle; simpl.
  - destruct st as [[d0|] [i|]]; simpl in *; try done.
    + destruct Hinv as (m & -> & Hm & Hem & Hde & Hmin & Hstrict).
      destruct (Qlt_bool d d0) eqn:Hlt; qbool.
      * exists k. split; [done|]. split; [lia|]. split; [done|].
        split; [done|]. split.
        -- intros j d' Hj Hej. destruct (Hsplit j Hj) as [Hlt'| ->].
           ++ specialize (Hmin j d' Hlt' Hej). lra.
           ++ rewrite Hk in Hej. injection Hej as <-. lra.
        -- intros j d' Hj Hej. specialize (Hmin j d' Hj Hej). lra.
      * exists m. split; [done|]. split; [lia|]. split; [done|].
        split; [done|]. split.
        -- intros j d' Hj Hej. destruct (Hsplit j Hj) as [Hlt'| ->].
           ++ by apply (Hmin j).
           ++ rewrite Hk in Hej. by injection Hej as <-.
        -- done.
    + qbool. exists k. split; [done|]. split; [lia|]. split; [done|].
      split; [done|]. split.
      * intros j d' Hj Hej. destruct (Hsplit j Hj) as [Hlt'| ->].
        -- specialize (Hinv j d' Hlt' Hej). lra.
        -- rewrite Hk in Hej. injection Hej as <-. lra.
      * intros j d' Hj Hej. specialize (Hinv j d' Hj Hej). lra.
  - qbool. destruct st as [[d0|] [i|]]; simpl in *; try done.
    + destruct Hinv as (m & -> & Hm & Hem & Hde & Hmin & Hstrict).
      exists m. split; [done|]. split; [lia|]. split; [done|].
      split; [done|]. split; [|done].
      intros j d' Hj Hej. destruct (Hsplit j Hj) as [Hlt'| ->].
      * by apply (Hmin j).
      * rewrite Hk in Hej. injection Hej as <-. lra.
    + intros j d' Hj Hej. destruct (Hsplit j Hj) as [Hlt'| ->].
      * by apply (Hinv j).
      * rewrite Hk in Hej. by injection Hej as <-.
Qed.

Lemma edge_dist_first (dl : value → value → Q) (pre : list value)
    (a b : value) :
  head (pre ++ [a]) = Some b → edge_dist dl (pre ++ [a]) 0 = Some (dl a b).
Proof.
  intros Hb. unfold edge_dist. change (Z.of_nat 0 - 1) with (-1).
  rewrite py_getitem_last.
  destruct (pre ++ [a]) as [|x l] eqn:Hl; [done|].
  injection Hb as ->. change (Z.of_nat 0) with 0.
  by rewrite py_getitem_first.
Qed.

Lemma edge_dist_next (dl : value → value → Q) (ps : list value) (k : nat)
    (a b : value) :
  ps !! k = Some a → ps !! S k = Some b →
  edge_dist dl ps (S k) = Some (dl a b).
Proof.
  intros Ha Hb. unfold edge_dist.
  replace (Z.of_nat (S k) - 1) with (Z.of_nat k) by lia.
  by rewrite (py_getitem_nat _ _ _ Ha), (py_getitem_nat _ _ _ Hb).
Qed.

Section edges.
Variable distancetoline : QPointF → list value → result Q.
Variable dl : value → value → Q.
Variable pos : QPointF.
Variable epsilon : Q.
Variable sh : Shape.
Hypothesis distancetoline_points : ∀ a b,
  a ∈ points sh → b ∈ points sh → distancetoline pos [a; b] = Ok (dl a b).

Lemma nearestEdge_loop_scan (n : nat) : ∀ (k : nat) st,
  (k + n = length (points sh))%nat →
  scan_inv (edge_dist dl (points sh)) epsilon k st →
  ∃ m r,
    nearestEdge_loop distancetoline sh n (Z.of_nat k) pos epsilon st = Ok r
    ∧ scan_inv (edge_dist dl (points sh)) epsilon (k + n) (m, r).
Proof.
  induction n as [|n IH]; intros k st Hlen Hinv.
  - simpl. rewrite Nat.add_0_r. exists st.1, st.2. by destruct st.
  - destruct (py_getitem_in_range (points sh) (Z.of_nat k - 1)) as [a Ha];
      [unfold py_len; lia|].
    destruct (py_getitem_in_range (points sh) (Z.of_nat k)) as [b Hb];
      [unfold py_len; lia|].
    assert (He : edge_dist dl (points sh) k = Some (dl a b))
      by (unfold edge_dist; by rewrite Ha, Hb).
    cbn [nearestEdge_loop]. rewrite Ha, Hb. cbn [mbind result_bind].
    rewrite (distancetoline_points a b)
      by (by eapply py_getitem_elem). cbn [mbind result_bind].
    destruct (IH (S k) _ ltac:(lia) (scan_inv_step _ _ _ _ _ Hinv He))
      as (m & r & Hloop & Hfin).
    exists m, r. replace (k + S n)%nat with (S k + n)%nat by lia.
    split; [|done]. rewrite <- Hloop. f_equal. lia.
Qed.

(** X16. [nearestEdge(point, epsilon)] measures one edge per index: the
    edge of index k + 1 runs from [points[k]] to [points[k + 1]], and the
    edge of index 0 runs from the last point to the first, whether the
    shape is closed or not.  It returns [None] exactly when every edge is
    farther than epsilon; otherwise it returns the index of an edge within
    epsilon whose distance is minimal over all edges and strictly smaller
    than that of every edge at an earlier index. *)
Theorem nearestEdge_minimal :
  let e := edge_dist dl (points sh) in
  (∀ pre a b, points sh = pre ++ [a] → head (points sh) = Some b →
     e 0%nat = Some (dl a b))
  ∧ (∀ k a b, points sh !! k = Some a → points sh !! S k = Some b →
       e (S k) = Some (dl a b))
  ∧ ∃ r, nearestEdge distancetoline sh pos epsilon = Ok r
    ∧ (r = None ↔
         ∀ j d, (j < length (points sh))%nat → e j = Some d →
           (epsilon < d)%Q)
    ∧ (∀ i, r = Some i →
         ∃ (m : nat) (d : Q),
           i = Z.of_nat m ∧ (m < length (points sh))%nat ∧ e m = Some d
           ∧ (d <= epsilon)%Q
           ∧ (∀ j d', (j < length (points sh))%nat → e j = Some d' →
                (d <= d')%Q)
           ∧ (∀ j d', (j < m)%nat → e j = Some d' → (d < d')%Q)).
Proof.
  intros e. split.
  { intros pre a b Hp Hb. unfold e. rewrite Hp in Hb |- *.
    by apply edge_dist_first. }
  split; [intros k a b; apply edge_dist_next|].
  destruct (nearestEdge_loop_scan (length (points sh)) 0 (None, None))
    as (m & r & Hloop & Hfin); [done| |].
  { intros j d Hj. lia. }
  simpl in Hloop, Hfin. exists r. split; [done|]. fold e in Hfin.
  destruct m as [d|], r as [i|]; simpl in Hfin; try done.
  destruct Hfin as (k & -> & Hk & Hek & Hle & Hmin & Hstrict). split.
  - split; [done|]. intros Hall. exfalso.
    specialize (Hall k d Hk Hek). lra.
  - intros i [= <-]. exists k, d. done.
Qed.
End edges.

Lemma nearestEdge_minimal_witness :
  (∀ a b,
     a ∈ points (mkShape polygon
                   [VPoint (P 0 0); VPoint (P 4 0); VPoint (P 4 4)]
                   [] 0 false) →
     b ∈ points (mkShape polygon
                   [VPoint (P 0 0); VPoint (P 4 0); VPoint (P 4 4)]
                   [] 0 false) →
     (λ (pos : QPointF) (line : list value),
        Ok (match line with
            | [VPoint a; VPoint b] =>
                Qabs (py a - py pos) + Qabs (py b - py pos)
            | _ => 0
            end)%Q) (P 2 1) [a; b]
     = Ok ((λ a b : value,
              match a, b with
              | VPoint a, VPoint b =>
                  Qabs (py a - py (P 2 1)) + Qabs (py b - py (P 2 1))
              | _, _ => 0
              end)%Q a b))
  ∧ nearestEdge
      (λ (pos : QPointF) (line : list value),
         Ok (match line with
             | [VPoint a; VPoint b] =>
                 Qabs (py a - py pos) + Qabs (py b - py pos)
             | _ => 0
             end)%Q)
      (mkShape polygon [VPoint (P 0 0); VPoint (P 4 0); VPoint (P 4 4)]
         [] 0 false) (P 2 1) 3
    = Ok (Some 1).
Proof.
  assert (H : ∀ a b,
     a ∈ points (mkShape polygon
                   [VPoint (P 0 0); VPoint (P 4 0); VPoint (P 4 4)]
                   [] 0 false) →
     b ∈ points (mkShape polygon
                   [VPoint (P 0 0); VPoint (P 4 0); VPoint (P 4 4)]
                   [] 0 false) →
     (λ (pos : QPointF) (line : list value),
        Ok (match line with
            | [VPoint a; VPoint b] =>
                Qabs (py a - py pos) + Qabs (py b - py pos)
            | _ => 0
            end)%Q) (P 2 1) [a; b]
     = Ok ((λ a b : value,
              match a, b with
              | VPoint a, VPoint b =>
                  Qabs (py a - py (P 2 1)) + Qabs (py b - py (P 2 1))
              | _, _ => 0
              end)%Q a b)).
  { intros a b _ _. by destruct a, b. }
  split; [exact H|].
  destruct (nearestEdge_minimal _ _ (P 2 1) 3 _ H) as (_ & _ & r & Hr & _).
  rewrite Hr. vm_compute in Hr. injection Hr as <-. reflexivity.
Defined.

(** ** The rectangle of a circle *)

